(** * blind-ai: the live audio session hook and the emergency notifier

    A shallow embedding of [useGeminiLive] (the sample codec, the playback
    scheduler, the inbound dispatch, the gated senders and [connect]) and of
    [sendEmergencySMS], with the properties the design document states
    about them; then of [disconnect], of the earlier revision of the hook
    and of [handleMotion] of [useFallDetection], with further properties
    read off the code.

    Numbers.  A JavaScript number that the program handles is modelled by a
    rational ([Q]).  For the codec this loses nothing: a [Float32Array]
    element is a dyadic rational with a 24-bit significand, the products
    [s * 0x8000] and [s * 0x7FFF] need at most 39 significant bits and are
    exact in binary64, and [int16 / 32768.0] is exact in binary32
    (lemmas [scaled_sample_is_exact] and [decoded_sample_is_exact]).  For
    the playback clock the sums [scheduledTimeRef.current += buffer.duration]
    are taken exactly.  NaN and the infinities are outside the model.

    The platform.  Where a platform or library call can throw on a value
    the program can hand it, the throw is part of the model:
    [ctx.createBuffer] on a length of zero, [new WebSocket] on an address
    with a fragment, [twilio] on credentials it refuses.  The magnitude
    [Math.sqrt(x * x + y * y + z * z)] of the fall detector is rounded by
    the platform and is taken as a parameter. *)

From Stdlib Require Import ZArith NArith QArith Qminmax Qabs Qround.
From Stdlib Require Import List String Ascii Bool Lia Lqa ZifyNat.
Import ListNotations.

(** ** Exceptions and completions *)

(** The exceptions the modelled code can raise. *)
Inductive exn : Type :=
| InvalidCharacterError   (* atob on text that is not base64 *)
| RangeError              (* new Int16Array(buffer) on an odd byte length *)
| TypeError               (* a method call on null *)
| NotSupportedError       (* ctx.createBuffer with a length of zero *)
| SyntaxError             (* new WebSocket on an address with a fragment *)
| Error (message : string).  (* thrown by a library with [new Error] *)

(** A pure call either returns a value or throws. *)
Inductive completion (A : Type) : Type :=
| Normal (a : A)
| Throw (e : exn).

Arguments Normal {A} a.
Arguments Throw {A} e.

Definition bind {A B : Type} (c : completion A) (k : A -> completion B)
  : completion B :=
  match c with
  | Normal a => k a
  | Throw e => Throw e
  end.

Notation "'let*' x ':=' c 'in' k" := (bind c (fun x => k))
  (at level 10, x name, c at level 100, k at level 200).

(** A handler that works on the refs of the hook leaves a state behind
    whether it returns or throws: what it wrote before the exception stays
    written. *)
Inductive result (S : Type) : Type :=
| Returned (s : S)
| Threw (e : exn) (s : S).

Arguments Returned {S} s.
Arguments Threw {S} e s.

Definition state_of {S : Type} (r : result S) : S :=
  match r with
  | Returned s => s
  | Threw _ s => s
  end.

Definition and_then {S : Type} (r : result S) (k : S -> result S) : result S :=
  match r with
  | Returned s => k s
  | Threw e s => Threw e s
  end.

Definition lift {S T : Type} (put : T -> S) (r : result T) : result S :=
  match r with
  | Returned t => Returned (put t)
  | Threw e t => Threw e (put t)
  end.

(** ** Induction on lists three elements at a time *)

Section ListInd3.
Variable A : Type.
Variable P : list A -> Prop.
Hypothesis P0 : P [].
Hypothesis P1 : forall a, P [a].
Hypothesis P2 : forall a b, P [a; b].
Hypothesis P3 : forall a b c l, P l -> P (a :: b :: c :: l).

Fixpoint list_ind3 (l : list A) : P l :=
  match l with
  | [] => P0
  | [a] => P1 a
  | [a; b] => P2 a b
  | a :: b :: c :: l' => P3 a b c l' (list_ind3 l')
  end.
End ListInd3.

Arguments list_ind3 {A} P _ _ _ _ l.

(** ** Base64: the platform's [btoa] and [atob] *)

Module Base64.

Local Open Scope N_scope.
Local Open Scope char_scope.

Definition alphabet : list ascii :=
  list_ascii_of_string
    "ABCDEFGHIJKLMNOPQRSTUVWXYZabcdefghijklmnopqrstuvwxyz0123456789+/".

(** The character of a 6-bit value. *)
Definition b64_char (n : N) : ascii := nth (N.to_nat n) alphabet "=".

Fixpoint index_of (c : ascii) (l : list ascii) (i : N) : option N :=
  match l with
  | [] => None
  | x :: l' => if Ascii.eqb x c then Some i else index_of c l' (N.succ i)
  end.

(** The 6-bit value of a character of the alphabet. *)
Definition b64_index (c : ascii) : option N := index_of c alphabet 0.

(** Three bytes make four 6-bit values; a last group of one or two bytes
    is completed with zero bits and with "=". *)
Fixpoint encode (bytes : list N) : list ascii :=
  match bytes with
  | [] => []
  | [a] =>
      [b64_char (a / 4); b64_char ((a mod 4) * 16); "="; "="]
  | [a; b] =>
      [b64_char (a / 4); b64_char ((a mod 4) * 16 + b / 16);
       b64_char ((b mod 16) * 4); "="]
  | a :: b :: c :: rest =>
      b64_char (a / 4) :: b64_char ((a mod 4) * 16 + b / 16)
      :: b64_char ((b mod 16) * 4 + c / 64) :: b64_char (c mod 64)
      :: encode rest
  end.

(** [btoa] on a binary string (every character code is below 256, as it is
    for every [ascii]). *)
Definition btoa (binary : string) : string :=
  string_of_list_ascii
    (encode (map N_of_ascii (list_ascii_of_string binary))).

Definition is_byte (n : N) : Prop := n < 256.
Definition is_sextet (n : N) : Prop := n < 64.

(** The 6-bit values [encode] writes, and the "=" it ends with. *)
Fixpoint groups (bytes : list N) : list N :=
  match bytes with
  | [] => []
  | [a] => [a / 4; (a mod 4) * 16]
  | [a; b] => [a / 4; (a mod 4) * 16 + b / 16; (b mod 16) * 4]
  | a :: b :: c :: rest =>
      a / 4 :: (a mod 4) * 16 + b / 16 :: (b mod 16) * 4 + c / 64
      :: c mod 64 :: groups rest
  end.

Fixpoint padding (bytes : list N) : list ascii :=
  match bytes with
  | [] => []
  | [_] => ["="; "="]
  | [_; _] => ["="]
  | _ :: _ :: _ :: rest => padding rest
  end.

(** ASCII whitespace: TAB, LF, FF, CR and SPACE. *)
Definition is_ascii_whitespace (c : ascii) : bool :=
  let n := N_of_ascii c in
  ((n =? 9) || (n =? 10) || (n =? 12) || (n =? 13) || (n =? 32))%N.

(** When the length is a multiple of four, one or two "=" at the end are
    removed. *)
Definition strip_padding (data : list ascii) : list ascii :=
  if (List.length data mod 4 =? 0)%nat then
    match rev data with
    | c1 :: r1 =>
        if Ascii.eqb c1 "=" then
          match r1 with
          | c2 :: r2 => if Ascii.eqb c2 "=" then rev r2 else rev r1
          | [] => rev r1
          end
        else data
    | [] => data
    end
  else data.

Fixpoint sextets (data : list ascii) : option (list N) :=
  match data with
  | [] => Some []
  | c :: data' =>
      match b64_index c, sextets data' with
      | Some n, Some ns => Some (n :: ns)
      | _, _ => None
      end
  end.

(** Four 6-bit values give three bytes; two left over give one byte and
    three give two, the unused low bits being dropped. *)
Fixpoint decode (ns : list N) : list N :=
  match ns with
  | s1 :: s2 :: s3 :: s4 :: rest =>
      (s1 * 4 + s2 / 16) :: ((s2 mod 16) * 16 + s3 / 4)
      :: ((s3 mod 4) * 64 + s4) :: decode rest
  | [s1; s2; s3] => [s1 * 4 + s2 / 16; (s2 mod 16) * 16 + s3 / 4]
  | [s1; s2] => [s1 * 4 + s2 / 16]
  | _ => []
  end.

(** [atob]: the forgiving base64 decoding of the HTML standard. *)
Definition atob (base64 : string) : completion string :=
  let data :=
    filter (fun c => negb (is_ascii_whitespace c))
           (list_ascii_of_string base64) in
  let data := strip_padding data in
  if (List.length data mod 4 =? 1)%nat then Throw InvalidCharacterError
  else
    match sextets data with
    | None => Throw InvalidCharacterError
    | Some ns => Normal (string_of_list_ascii (map ascii_of_N (decode ns)))
    end.

End Base64.

(** ** The sample codec: [float32ToBase64] and [base64ToFloat32] *)

Module Codec.

Local Open Scope Q_scope.

Definition Float32Array : Type := list Q.
Definition Int16Array : Type := list Z.
Definition Uint8Array : Type := list Z.

(** [x < y] on numbers. *)
Definition Qltb (x y : Q) : bool := negb (Qle_bool y x).

(** The integral part of a number, rounding toward zero. *)
Definition truncate (x : Q) : Z :=
  if Qltb x 0 then Qceiling x else Qfloor x.

(** The conversion a store into an [Int16Array] applies: truncate, reduce
    modulo 2^16, read the result as a signed 16-bit value. *)
Definition ToInt16 (x : Q) : Z :=
  let int := truncate x in
  let int16bit := (int mod 65536)%Z in
  if (32768 <=? int16bit)%Z then (int16bit - 65536)%Z else int16bit.

(** The body of the first loop of [float32ToBase64]:
    [s = Math.max(-1, Math.min(1, buffer[i]))],
    [pcm16[i] = s < 0 ? s * 0x8000 : s * 0x7FFF]. *)
Definition pcm16_of_sample (x : Q) : Z :=
  let s := Qmax (-1) (Qmin 1 x) in
  ToInt16 (if Qltb s 0 then s * 32768 else s * 32767).

(** [new Uint8Array(pcm16.buffer)]: the two bytes of every element, the low
    byte first. *)
Definition Uint8Array_of_buffer (pcm16 : Int16Array) : Uint8Array :=
  flat_map (fun v => let u := (v mod 65536)%Z in [u mod 256; u / 256]%Z)
           pcm16.

(** [String.fromCharCode] on an element of a [Uint8Array], and the code of a
    character of a binary string. *)
Definition String_fromCharCode (code : Z) : ascii := ascii_of_N (Z.to_N code).

Definition charCodeAt (c : ascii) : Z := Z.of_N (N_of_ascii c).

Definition float32ToBase64 (buffer : Float32Array) : string :=
  let pcm16 := map pcm16_of_sample buffer in
  let bytes := Uint8Array_of_buffer pcm16 in
  let binary := string_of_list_ascii (map String_fromCharCode bytes) in
  Base64.btoa binary.

(** [new Int16Array(bytes.buffer)]: pairs of bytes read as signed 16-bit
    values, the low byte first; a buffer of odd length is refused. *)
Fixpoint Int16Array_of_buffer (bytes : Uint8Array) : completion Int16Array :=
  match bytes with
  | [] => Normal []
  | [_] => Throw RangeError
  | lo :: hi :: rest =>
      let* int16 := Int16Array_of_buffer rest in
      let u := (lo + 256 * hi)%Z in
      Normal ((if (32768 <=? u)%Z then (u - 65536)%Z else u) :: int16)
  end.

Definition base64ToFloat32 (base64 : string) : completion Float32Array :=
  let* binary := Base64.atob base64 in
  let bytes := map charCodeAt (list_ascii_of_string binary) in
  let* int16 := Int16Array_of_buffer bytes in
  Normal (map (fun v => inject_Z v / 32768) int16).

(** Numbers of the form [m / 2^e] with [|m| < 2^prec] and
    [0 <= e <= emin]: the binary floating-point numbers of precision
    [prec] below [2^prec] in magnitude. *)
Definition representable (prec emin : Z) (q : Q) : Prop :=
  exists m e : Z,
    (Z.abs m < 2 ^ prec)%Z /\ (0 <= e <= emin)%Z /\
    q == inject_Z m / inject_Z (2 ^ e).

Definition binary32 : Q -> Prop := representable 24 149.
Definition binary64 : Q -> Prop := representable 53 1074.

(** The largest distance between two blocks of equal length, sample by
    sample. *)
Fixpoint max_abs_diff (ys xs : Float32Array) : Q :=
  match ys, xs with
  | y :: ys', x :: xs' => Qmax (Qabs (y - x)) (max_abs_diff ys' xs')
  | _, _ => 0
  end.

(** The round trip stays within [bound] on every block whose samples lie
    in [-1, 1]. *)
Definition roundtrip_within (bound : Q) : Prop :=
  forall xs, Forall (fun x => -1 <= x <= 1) xs ->
  exists ys,
    base64ToFloat32 (float32ToBase64 xs) = Normal ys /\
    max_abs_diff ys xs <= bound.

End Codec.

(** ** The playback scheduler: [enqueueAudio], [playNextChunk],
       [clearAudioQueue] *)

Module Player.

Import Codec.
Local Open Scope Q_scope.

(** The [AudioContext] the hook creates in [startAudioCapture]. *)
Record AudioContext : Type := mkAudioContext { sampleRate : Z }.

(** The refs and the React state the scheduler works on, and what it has
    done to the output device: [started] lists the calls
    [source.start(when)] in the order they were made, each with the samples
    of its buffer, and [pending] counts the sources whose [onended] has been
    set and has not fired yet. *)
Record Playback : Type := mkPlayback {
  audioContextRef : option AudioContext;
  audioQueueRef : list Float32Array;
  isPlayingRef : bool;
  scheduledTimeRef : Q;
  isSpeaking : bool;
  started : list (Float32Array * Q);
  pending : nat
}.

(** The state of a freshly mounted hook. *)
Definition mounted : Playback :=
  {| audioContextRef := None; audioQueueRef := []; isPlayingRef := false;
     scheduledTimeRef := 0; isSpeaking := false; started := [];
     pending := O |}.

(** The first statement of [startAudioCapture]: the context is created when
    there is none. *)
Definition createAudioContext (p : Playback) : Playback :=
  match audioContextRef p with
  | Some _ => p
  | None =>
      {| audioContextRef := Some {| sampleRate := 16000 |};
         audioQueueRef := audioQueueRef p; isPlayingRef := isPlayingRef p;
         scheduledTimeRef := scheduledTimeRef p; isSpeaking := isSpeaking p;
         started := started p; pending := pending p |}
  end.

(** [buffer.duration] of [ctx.createBuffer(1, audioData.length, 24000)]. *)
Definition duration (audioData : Float32Array) : Q :=
  inject_Z (Z.of_nat (List.length audioData)) / 24000.

(** [playNextChunk]; [currentTime] is what [ctx.currentTime] reads when the
    call is made.  With no context, [ctx.createBuffer] is a call on null: by
    then the flags are set and the block has been taken off the queue.  With
    a context and a block of no samples, [ctx.createBuffer(1, 0, 24000)]
    throws, at the same point: the cursor has not been read yet, no source
    exists and no [onended] is set.  The other Web Audio calls are taken to
    return normally. *)
Definition playNextChunk (currentTime : Q) (p : Playback) : result Playback :=
  match audioQueueRef p with
  | [] =>
      Returned
        {| audioContextRef := audioContextRef p; audioQueueRef := [];
           isPlayingRef := false; scheduledTimeRef := scheduledTimeRef p;
           isSpeaking := false; started := started p; pending := pending p |}
  | audioData :: rest =>
      match audioContextRef p with
      | None =>
          Threw TypeError
            {| audioContextRef := None; audioQueueRef := rest;
               isPlayingRef := true; scheduledTimeRef := scheduledTimeRef p;
               isSpeaking := true; started := started p;
               pending := pending p |}
      | Some ctx =>
          match audioData with
          | [] =>
              Threw NotSupportedError
                {| audioContextRef := Some ctx; audioQueueRef := rest;
                   isPlayingRef := true;
                   scheduledTimeRef := scheduledTimeRef p;
                   isSpeaking := true; started := started p;
                   pending := pending p |}
          | _ :: _ =>
              let scheduledTime :=
                if Qltb (scheduledTimeRef p) currentTime then currentTime
                else scheduledTimeRef p in
              Returned
                {| audioContextRef := Some ctx; audioQueueRef := rest;
                   isPlayingRef := true;
                   scheduledTimeRef := scheduledTime + duration audioData;
                   isSpeaking := true;
                   started := started p ++ [(audioData, scheduledTime)];
                   pending := S (pending p) |}
          end
      end
  end.

Definition enqueueAudio (currentTime : Q) (audioData : Float32Array)
  (p : Playback) : result Playback :=
  let p :=
    {| audioContextRef := audioContextRef p;
       audioQueueRef := audioQueueRef p ++ [audioData];
       isPlayingRef := isPlayingRef p; scheduledTimeRef := scheduledTimeRef p;
       isSpeaking := isSpeaking p; started := started p;
       pending := pending p |} in
  if negb (isPlayingRef p) then playNextChunk currentTime p else Returned p.

Definition clearAudioQueue (p : Playback) : Playback :=
  {| audioContextRef := audioContextRef p; audioQueueRef := [];
     isPlayingRef := isPlayingRef p; scheduledTimeRef := 0;
     isSpeaking := isSpeaking p; started := started p; pending := pending p |}.

(** A source finishes and its [onended] runs [playNextChunk]; nothing
    happens when no source is outstanding. *)
Definition onended (currentTime : Q) (p : Playback) : result Playback :=
  match pending p with
  | O => Returned p
  | S n =>
      playNextChunk currentTime
        {| audioContextRef := audioContextRef p;
           audioQueueRef := audioQueueRef p; isPlayingRef := isPlayingRef p;
           scheduledTimeRef := scheduledTimeRef p; isSpeaking := isSpeaking p;
           started := started p; pending := n |}
  end.

(** What can happen to the scheduler, each with the reading of the playback
    clock at that moment. *)
Inductive event : Type :=
| Enqueue (currentTime : Q) (audioData : Float32Array)
| Ended (currentTime : Q)
| Interrupted.

Definition handle (e : event) (p : Playback) : result Playback :=
  match e with
  | Enqueue currentTime audioData => enqueueAudio currentTime audioData p
  | Ended currentTime => onended currentTime p
  | Interrupted => Returned (clearAudioQueue p)
  end.

(** The refs after an event, whether its handler returned or threw. *)
Definition step (p : Playback) (e : event) : Playback := state_of (handle e p).

Definition run (evs : list event) (p : Playback) : Playback :=
  fold_left step evs p.

(** The clock reading an event carries. *)
Definition clock (e : event) : Q :=
  match e with
  | Enqueue currentTime _ => currentTime
  | Ended currentTime => currentTime
  | Interrupted => 0
  end.

Definition is_interruption (e : event) : bool :=
  match e with
  | Interrupted => true
  | _ => false
  end.

Definition no_interruption (evs : list event) : bool :=
  forallb (fun e => negb (is_interruption e)) evs.

(** The blocks a trace enqueues, in order. *)
Fixpoint enqueued (evs : list event) : list Float32Array :=
  match evs with
  | [] => []
  | Enqueue _ audioData :: evs' => audioData :: enqueued evs'
  | _ :: evs' => enqueued evs'
  end.

(** Either a source is outstanding and the player is marked playing, or
    nothing is outstanding, the player is idle and the queue is empty. *)
Definition consistent (p : Playback) : Prop :=
  (isPlayingRef p = true /\ pending p = 1%nat) \/
  (isPlayingRef p = false /\ pending p = O /\ audioQueueRef p = []).

(** Every block of the list has a sample. *)
Definition with_samples (blocks : list Float32Array) : Prop :=
  Forall (fun audioData => audioData <> []) blocks.

(** The hook once [startAudioCapture] has made the context, before any
    audio has arrived. *)
Definition ready : Playback := createAudioContext mounted.

(** The same state with another cursor and another queue. *)
Definition with_cursor (c : Q) (queue : list Float32Array) (p : Playback)
  : Playback :=
  {| audioContextRef := audioContextRef p; audioQueueRef := queue;
     isPlayingRef := isPlayingRef p; scheduledTimeRef := c;
     isSpeaking := isSpeaking p; started := started p; pending := pending p |}.

(** The blocks handed to the output device, in order. *)
Definition output (p : Playback) : list Float32Array := map fst (started p).

(** Starting from cursor [c], every block starts no earlier than the
    previous one ends. *)
Fixpoint chained (c : Q) (l : list (Float32Array * Q)) : Prop :=
  match l with
  | [] => True
  | (audioData, when) :: l' =>
      c <= when /\ chained (when + duration audioData) l'
  end.

End Player.

(** ** The connection: [connect] and the gated senders *)

Module Session.

Import Codec.
Local Open Scope string_scope.

Definition API_URL : string :=
  "wss://generativelanguage.googleapis.com/ws/google.ai.generativelanguage.v1alpha.GenerativeService.BidiGenerateContent".

Inductive ReadyState : Type := CONNECTING | OPEN | CLOSING | CLOSED.

Definition is_OPEN (r : ReadyState) : bool :=
  match r with
  | OPEN => true
  | _ => false
  end.

(** [{ realtimeInput: { mediaChunks: [{ mimeType, data }] } }], the only
    message the senders build, before [JSON.stringify]. *)
Record RealtimeInput : Type := mkRealtimeInput {
  mimeType : string;
  data : string
}.

(** A socket: the address it was made for, its state, and the messages
    given to its [send], oldest first. *)
Record WebSocket : Type := mkWebSocket {
  url : string;
  readyState : ReadyState;
  sent : list RealtimeInput
}.

(** The refs and React state [connect] and the senders work on;
    [constructed] lists the addresses given to [new WebSocket], oldest
    first. *)
Record Session : Type := mkSession {
  wsRef : option WebSocket;
  isConnected : bool;
  error : option string;
  logs : list string;
  isVideoEnabled : bool;
  constructed : list string
}.

(** [wsRef.current?.readyState === WebSocket.OPEN] *)
Definition ws_is_open (s : Session) : bool :=
  match wsRef s with
  | Some ws => is_OPEN (readyState ws)
  | None => false
  end.

(** [prev.slice(-19)]: the last nineteen elements. *)
Definition slice_last19 (prev : list string) : list string :=
  skipn (List.length prev - 19) prev.

Definition addLog (message : string) (s : Session) : Session :=
  {| wsRef := wsRef s; isConnected := isConnected s; error := error s;
     logs := slice_last19 (logs s) ++ [message];
     isVideoEnabled := isVideoEnabled s; constructed := constructed s |}.

Definition setError (e : option string) (s : Session) : Session :=
  {| wsRef := wsRef s; isConnected := isConnected s; error := e;
     logs := logs s; isVideoEnabled := isVideoEnabled s;
     constructed := constructed s |}.

(** [!apiKey]: the empty string is the only falsy string. *)
Definition is_missing (apiKey : string) : bool := String.eqb apiKey "".

(** A credential with a [#] in it: in [API_URL ++ "?key=" ++ apiKey] what
    follows the [#] is a fragment, and [new WebSocket] throws on an address
    that has one.  Every other character is kept or percent-encoded in the
    query. *)
Definition has_fragment (apiKey : string) : bool :=
  existsb (Ascii.eqb "#"%char) (list_ascii_of_string apiKey).

(** [new WebSocket(address)] from the state [s]: the address is recorded;
    the socket is stored in [wsRef] only when the constructor returns. *)
Definition new_WebSocket (apiKey : string) (s : Session) : result Session :=
  let address := API_URL ++ "?key=" ++ apiKey in
  if has_fragment apiKey then
    Threw SyntaxError
      {| wsRef := wsRef s; isConnected := isConnected s; error := error s;
         logs := logs s; isVideoEnabled := isVideoEnabled s;
         constructed := constructed s ++ [address] |}
  else
    Returned
      {| wsRef :=
           Some {| url := address; readyState := CONNECTING; sent := [] |};
         isConnected := isConnected s; error := error s; logs := logs s;
         isVideoEnabled := isVideoEnabled s;
         constructed := constructed s ++ [address] |}.

(** [connect] as a call, up to the point where the handlers of the new
    socket are installed. *)
Definition connect_call (apiKey : string) (s : Session) : result Session :=
  if is_missing apiKey then
    Returned
      (addLog "Error: API Key is missing"
              (setError (Some "API Key is missing") s))
  else if ws_is_open s then Returned s
  else new_WebSocket apiKey (addLog "Connecting to Gemini Live..." s).

(** The refs after [connect], whether it returned or threw. *)
Definition connect (apiKey : string) (s : Session) : Session :=
  state_of (connect_call apiKey s).

(** [wsRef.current.send(JSON.stringify(m))] on the socket [ws]. *)
Definition ws_send (m : RealtimeInput) (ws : WebSocket) : WebSocket :=
  {| url := url ws; readyState := readyState ws; sent := sent ws ++ [m] |}.

Definition send_if_open (m : RealtimeInput) (s : Session) : Session :=
  match wsRef s with
  | Some ws =>
      if is_OPEN (readyState ws) then
        {| wsRef := Some (ws_send m ws); isConnected := isConnected s;
           error := error s; logs := logs s;
           isVideoEnabled := isVideoEnabled s;
           constructed := constructed s |}
      else s
  | None => s
  end.

(** [workletNodeRef.current.port.onmessage]: a block from the microphone. *)
Definition worklet_onmessage (inputData : Float32Array) (s : Session)
  : result Session :=
  let base64PCM := float32ToBase64 inputData in
  Returned
    (send_if_open
       {| mimeType := "audio/pcm;rate=16000"; data := base64PCM |} s).

Definition sendVideoFrame (base64Image : string) (s : Session)
  : result Session :=
  if negb (isVideoEnabled s) then Returned s
  else if ws_is_open s then
    Returned
      (addLog "Video frame sent"
         (send_if_open {| mimeType := "image/jpeg"; data := base64Image |} s))
  else Returned s.

(** What the other end of the connection has been given. *)
Definition transmitted (s : Session) : list RealtimeInput :=
  match wsRef s with
  | Some ws => sent ws
  | None => []
  end.

End Session.

(** ** The inbound dispatch: [ws.onmessage] *)

Module Inbound.

Import Codec Player Session.
Local Open Scope string_scope.

(** The part of a parsed message the handler looks at:
    [{ serverContent: { modelTurn: { parts: [{ inlineData: { data } }] },
                        interrupted } }];
    [None] is a property that is absent. *)
Record InlineData : Type := mkInlineData { inline_data : string }.
Record Part : Type := mkPart { inlineData : option InlineData }.
Record ModelTurn : Type := mkModelTurn { parts : option (list Part) }.
Record ServerContent : Type := mkServerContent {
  modelTurn : option ModelTurn;
  interrupted : bool
}.
Record Message : Type := mkMessage { serverContent : option ServerContent }.

(** [data.serverContent?.modelTurn?.parts?.[0]?.inlineData] *)
Definition first_inlineData (m : Message) : option InlineData :=
  match serverContent m with
  | Some sc =>
      match modelTurn sc with
      | Some mt =>
          match parts mt with
          | Some (part0 :: _) => inlineData part0
          | _ => None
          end
      | None => None
      end
  | None => None
  end.

(** [data.serverContent?.interrupted] *)
Definition is_interrupted (m : Message) : bool :=
  match serverContent m with
  | Some sc => interrupted sc
  | None => false
  end.

(** The refs of the hook the handler reaches. *)
Record Hook : Type := mkHook {
  session : Session;
  playback : Playback
}.

Definition on_playback (f : Playback -> result Playback) (h : Hook)
  : result Hook :=
  lift (fun p => {| session := session h; playback := p |}) (f (playback h)).

(** The audio branch of the handler. *)
Definition dispatch_audio (currentTime : Q) (m : Message) (h : Hook)
  : result Hook :=
  match first_inlineData m with
  | Some inline =>
      let base64Audio := inline_data inline in
      match base64ToFloat32 base64Audio with
      | Normal pcmData => on_playback (enqueueAudio currentTime pcmData) h
      | Throw e => Threw e h
      end
  | None => Returned h
  end.

(** The interruption branch of the handler. *)
Definition dispatch_interrupted (m : Message) (h : Hook) : result Hook :=
  if is_interrupted m then
    Returned
      {| session := addLog "Interrupted by user" (session h);
         playback := clearAudioQueue (playback h) |}
  else Returned h.

(** [ws.onmessage]; [parsed] is what [JSON.parse] made of the event's text,
    [None] when it threw. *)
Definition onmessage (currentTime : Q) (parsed : option Message) (h : Hook)
  : result Hook :=
  match parsed with
  | None =>
      Returned
        {| session := addLog "Error parsing message" (session h);
           playback := playback h |}
  | Some m =>
      and_then (dispatch_audio currentTime m h) (dispatch_interrupted m)
  end.

(** The handler of the earlier revision of the hook, which has no log and
    takes a message that parsed. *)
Definition onmessage_early (currentTime : Q) (m : Message) (p : Playback)
  : result Playback :=
  and_then
    (match first_inlineData m with
     | Some inline =>
         match base64ToFloat32 (inline_data inline) with
         | Normal pcmData => enqueueAudio currentTime pcmData p
         | Throw e => Threw e p
         end
     | None => Returned p
     end)
    (fun p => if is_interrupted m then Returned (clearAudioQueue p)
              else Returned p).

(** A server turn with the parts [ps]. *)
Definition server_turn (ps : list Part) (interrupted : bool) : Message :=
  {| serverContent :=
       Some {| modelTurn := Some {| parts := Some ps |};
               interrupted := interrupted |} |}.

End Inbound.

(** ** The emergency notifier: [sendEmergencySMS] *)

Module Notify.

Local Open Scope string_scope.

(** [process.env]: a variable is absent or holds a string. *)
Record Env : Type := mkEnv {
  TWILIO_ACCOUNT_SID : option string;
  TWILIO_AUTH_TOKEN : option string;
  TWILIO_PHONE_NUMBER : option string;
  EMERGENCY_CONTACT_NUMBER : option string
}.

(** The argument of [client.messages.create]. *)
Record Sms : Type := mkSms {
  body : string;
  from : string;
  to : string
}.

(** The value the function resolves to. *)
Record Outcome : Type := mkOutcome {
  success : bool;
  sid : option string;
  error : option string
}.

(** A string that is present and not empty. *)
Definition configured (v : option string) : option string :=
  match v with
  | Some s => if String.eqb s "" then None else Some s
  | None => None
  end.

(** An environment in which nothing is missing. *)
Definition complete (env : Env) : Prop :=
  exists accountSid authToken fromNumber toNumber,
    configured (TWILIO_ACCOUNT_SID env) = Some accountSid /\
    configured (TWILIO_AUTH_TOKEN env) = Some authToken /\
    configured (TWILIO_PHONE_NUMBER env) = Some fromNumber /\
    configured (EMERGENCY_CONTACT_NUMBER env) = Some toNumber.

(** The truth value of [number | null]: null and zero are falsy. *)
Definition truthy (n : option Q) : bool :=
  match n with
  | Some q => negb (Qeq_bool q 0)
  | None => false
  end.

Definition LF : string := String (ascii_of_nat 10) "".

(** The first character of the message, U+1F6A8, as its UTF-8 bytes. *)
Definition siren : string :=
  String (ascii_of_nat 240) (String (ascii_of_nat 159)
    (String (ascii_of_nat 154) (String (ascii_of_nat 168) ""))).

Definition alert : string :=
  siren ++ " FALL DETECTED! The user may need assistance.".

Section SendEmergencySMS.

(** The text of a number in a template literal. *)
Variable number_text : Q -> string.

(** The Twilio library.  [twilio(accountSid, authToken)] returns a client
    or throws (it does for an account SID that does not start with [AC]);
    [client.messages.create] resolves with the [sid] of the message or
    rejects. *)
Variable Client : Type.
Variable twilio : string -> string -> completion Client.
Variable create : Client -> Sms -> option string.

(** [`${n}`] for [n : number | null]. *)
Definition template (n : option Q) : string :=
  match n with
  | Some q => number_text q
  | None => "null"
  end.

Definition messageBody (latitude longitude : option Q) : string :=
  if truthy latitude && truthy longitude then
    alert ++ LF ++ LF ++ "Location: https://www.google.com/maps?q="
          ++ template latitude ++ "," ++ template longitude
  else alert.

(** The credentials of the environment are there and [twilio] returns a
    client for them. *)
Definition accepted (env : Env) : Prop :=
  exists accountSid authToken client,
    configured (TWILIO_ACCOUNT_SID env) = Some accountSid /\
    configured (TWILIO_AUTH_TOKEN env) = Some authToken /\
    twilio accountSid authToken = Normal client.

(** What the call comes to, and the messages given to the service.  The
    client is made outside the [try]: when [twilio] throws, the call
    rejects with what it threw, before the message is written. *)
Definition sendEmergencySMS (env : Env) (latitude longitude : option Q)
  : completion Outcome * list Sms :=
  match configured (TWILIO_ACCOUNT_SID env), configured (TWILIO_AUTH_TOKEN env),
        configured (TWILIO_PHONE_NUMBER env),
        configured (EMERGENCY_CONTACT_NUMBER env) with
  | Some accountSid, Some authToken, Some fromNumber, Some toNumber =>
      match twilio accountSid authToken with
      | Throw e => (Throw e, [])
      | Normal client =>
          let message :=
            {| body := messageBody latitude longitude;
               from := fromNumber; to := toNumber |} in
          match create client message with
          | Some message_sid =>
              (Normal
                 {| success := true; sid := Some message_sid; error := None |},
               [message])
          | None =>
              (Normal
                 {| success := false; sid := None;
                    error := Some "Failed to send SMS" |}, [message])
          end
      end
  | _, _, _, _ =>
      (Normal
         {| success := false; sid := None;
            error := Some "Configuration missing" |}, [])
  end.

End SendEmergencySMS.

Arguments accepted {Client} twilio env.
Arguments sendEmergencySMS number_text {Client} twilio create env
  latitude longitude.

(** A [twilio] that keeps the credentials as the client and, as the
    library does, throws for an account SID that does not start with
    [AC]. *)
Definition account_client (accountSid authToken : string)
  : completion (string * string) :=
  if prefix "AC" accountSid then Normal (accountSid, authToken)
  else Throw (Error "accountSid must start with AC").

End Notify.

(** ** Traces of the scheduler and of the inbound handler *)

Module Traces.

Import Codec Player Session Inbound.
Local Open Scope Q_scope.

(** The cursor is at zero or at the end of the block started last. *)
Definition cursor_at_end (p : Playback) : Prop :=
  scheduledTimeRef p = 0 \/
  exists l audioData when,
    started p = l ++ [(audioData, when)] /\
    scheduledTimeRef p = when + duration audioData.





End Traces.

(** ** The earlier revision of the hook: [connect] and [sendVideoFrame] *)

Module Early.

Import Session.
Local Open Scope string_scope.

(** [connect] of the earlier revision as a call: no test of the
    credential, no log.  The fields the earlier hook does not have are
    carried along. *)
Definition connect_call (apiKey : string) (s : Session) : result Session :=
  if ws_is_open s then Returned s else new_WebSocket apiKey s.

(** The refs after [connect], whether it returned or threw. *)
Definition connect (apiKey : string) (s : Session) : Session :=
  state_of (connect_call apiKey s).

(** [sendVideoFrame] of the earlier revision: no video flag, no log. *)
Definition sendVideoFrame (base64Image : string) (s : Session)
  : result Session :=
  Returned
    (send_if_open {| mimeType := "image/jpeg"; data := base64Image |} s).

End Early.

(** ** [disconnect] and [stopAudioCapture] *)

Module Lifecycle.

Import Session.
Local Open Scope string_scope.

Inductive AudioNode : Type := MediaStreamAudioSourceNode | AudioWorkletNode.

(** The refs of the microphone graph. *)
Record Capture : Type := mkCapture {
  sourceRef : option AudioNode;
  workletNodeRef : option AudioNode
}.

Record Client : Type := mkClient {
  client_session : Session;
  client_capture : Capture
}.

(** [ws.close()]: a socket that is connecting or open starts closing, a
    socket that is closing or closed stays as it is. *)
Definition ws_close (ws : WebSocket) : WebSocket :=
  {| url := url ws;
     readyState :=
       match readyState ws with
       | CONNECTING | OPEN | CLOSING => CLOSING
       | CLOSED => CLOSED
       end;
     sent := sent ws |}.

(** [wsRef.current?.close()] *)
Definition close_current (s : Session) : Session :=
  match wsRef s with
  | Some ws =>
      {| wsRef := Some (ws_close ws); isConnected := isConnected s;
         error := error s; logs := logs s;
         isVideoEnabled := isVideoEnabled s; constructed := constructed s |}
  | None => s
  end.

(** Both nodes are disconnected, when there, and both refs are set to
    null. *)
Definition stopAudioCapture (c : Capture) : Capture :=
  {| sourceRef := None; workletNodeRef := None |}.

Definition disconnect (c : Client) : Client :=
  {| client_session :=
       addLog "Disconnected by user" (close_current (client_session c));
     client_capture := stopAudioCapture (client_capture c) |}.

(** What the application can ask of the connection. *)
Inductive request : Type :=
| Connect (apiKey : string)
| Disconnect
| MicrophoneBlock (inputData : Codec.Float32Array)
| VideoFrame (base64Image : string).

Definition serve (c : Client) (r : request) : Client :=
  match r with
  | Connect apiKey =>
      {| client_session := connect apiKey (client_session c);
         client_capture := client_capture c |}
  | Disconnect => disconnect c
  | MicrophoneBlock inputData =>
      {| client_session :=
           state_of (worklet_onmessage inputData (client_session c));
         client_capture := client_capture c |}
  | VideoFrame base64Image =>
      {| client_session :=
           state_of (sendVideoFrame base64Image (client_session c));
         client_capture := client_capture c |}
  end.

Definition serve_all (rs : list request) (c : Client) : Client :=
  fold_left serve rs c.

(** The requests that only send. *)
Definition is_send (r : request) : bool :=
  match r with
  | MicrophoneBlock _ | VideoFrame _ => true
  | _ => false
  end.

(** The client of a freshly mounted hook. *)
Definition fresh_client : Client :=
  {| client_session :=
       {| wsRef := None; isConnected := false; error := None; logs := [];
          isVideoEnabled := true; constructed := [] |};
     client_capture := {| sourceRef := None; workletNodeRef := None |} |}.

(** A client whose socket is open and whose microphone graph is set up. *)
Definition open_client : Client :=
  {| client_session :=
       {| wsRef := Some {| url := API_URL; readyState := OPEN; sent := [] |};
          isConnected := true; error := None; logs := [];
          isVideoEnabled := true; constructed := [API_URL] |};
     client_capture :=
       {| sourceRef := Some MediaStreamAudioSourceNode;
          workletNodeRef := Some AudioWorkletNode |} |}.

(** The message a request to send gives to the socket. *)
Definition message_of (r : request) : list RealtimeInput :=
  match r with
  | MicrophoneBlock inputData =>
      [{| mimeType := "audio/pcm;rate=16000";
          data := Codec.float32ToBase64 inputData |}]
  | VideoFrame base64Image =>
      [{| mimeType := "image/jpeg"; data := base64Image |}]
  | _ => []
  end.

End Lifecycle.

(** ** Fall detection: [handleMotion] of [useFallDetection] *)

Module FallDetection.

Local Open Scope Z_scope.

Definition COOLDOWN_MS : Z := 30000.
Definition THRESHOLD : Q := 25.

(** [event.accelerationIncludingGravity], with its components
    [number | null]. *)
Record Acceleration : Type := mkAcceleration {
  x : option Q;
  y : option Q;
  z : option Q
}.

Record DeviceMotionEvent : Type := mkDeviceMotionEvent {
  accelerationIncludingGravity : option Acceleration
}.

(** What the position lookup comes to: there is no [geolocation] in
    [navigator], the success callback runs with the coordinates, or the
    error callback runs. *)
Inductive Geolocation : Type :=
| NoGeolocation
| Position (latitude longitude : Q)
| PositionError.

(** The arguments of the call of [sendEmergencySMS] an alert ends in. *)
Definition sms_arguments (g : Geolocation) : option Q * option Q :=
  match g with
  | Position latitude longitude => (Some latitude, Some longitude)
  | NoGeolocation | PositionError => (None, None)
  end.

(** The ref of the hook, and what it has done: each alert is a call of
    [onFall] followed by one call of [sendEmergencySMS], recorded with the
    time of the alert and the arguments of that call, oldest first. *)
Record Detector : Type := mkDetector {
  lastAlertTime : Z;
  alerts : list (Z * (option Q * option Q))
}.

Definition initial : Detector := {| lastAlertTime := 0; alerts := [] |}.

Section Magnitude.

(** [Math.sqrt(x * x + y * y + z * z)] as the platform computes it in
    binary64, rounding each product, each sum and the root. *)
Variable magnitude : Q -> Q -> Q -> Q.

(** [acceleration > THRESHOLD] *)
Definition exceeds_threshold (ax ay az : Q) : bool :=
  let acceleration := magnitude ax ay az in
  Codec.Qltb THRESHOLD acceleration.

(** [handleMotion]; [now] is what [Date.now()] reads. *)
Definition handleMotion (event : DeviceMotionEvent) (now : Z)
  (g : Geolocation) (d : Detector) : Detector :=
  match accelerationIncludingGravity event with
  | None => d
  | Some a =>
      match x a, y a, z a with
      | Some ax, Some ay, Some az =>
          if exceeds_threshold ax ay az then
            if COOLDOWN_MS <? now - lastAlertTime d then
              {| lastAlertTime := now;
                 alerts := alerts d ++ [(now, sms_arguments g)] |}
            else d
          else d
      | _, _, _ => d
      end
  end.

(** A reading of the sensor, the clock when it arrives and what the
    position lookup would come to. *)
Record reading : Type := mkReading {
  motion : DeviceMotionEvent;
  at_time : Z;
  lookup : Geolocation
}.

Definition observe (d : Detector) (r : reading) : Detector :=
  handleMotion (motion r) (at_time r) (lookup r) d.

Definition observe_all (rs : list reading) (d : Detector) : Detector :=
  fold_left observe rs d.

End Magnitude.

(** The magnitude where binary64 is exact: the components are whole
    numbers and the sum of their squares is the square of a whole number
    (below 2^53).  On other readings it is the root rounded down to a whole
    number. *)
Definition whole_magnitude (ax ay az : Q) : Q :=
  inject_Z (Z.sqrt (Qfloor (ax * ax + ay * ay + az * az)%Q)).

(** A reading well above the threshold, about 3 g. *)
Definition shake (t : Z) (g : Geolocation) : reading :=
  {| motion :=
       {| accelerationIncludingGravity :=
            Some {| x := Some 20%Q; y := Some 20%Q; z := Some 10%Q |} |};
     at_time := t; lookup := g |}.

(** Consecutive alerts are more than the cooldown apart. *)
Fixpoint spaced (l : list (Z * (option Q * option Q))) : Prop :=
  match l with
  | a :: ((b :: _) as l') => COOLDOWN_MS < fst b - fst a /\ spaced l'
  | _ => True
  end.

(** The time of the alert recorded last, when there is one, is the time
    the ref holds. *)
Definition last_is_ref (d : Detector) : Prop :=
  forall l a, alerts d = l ++ [a] -> fst a = lastAlertTime d.

End FallDetection.

(** * Properties *)

(** Linear arithmetic with division and remainder by constants. *)
Ltac divmod := zify; Z.to_euclidean_division_equations; lia.

(** ** Base64 *)

Module Base64Facts.

Import Base64.
Local Open Scope N_scope.
Local Open Scope char_scope.

(** A property checked on 0..63 holds of every 6-bit value. *)
Lemma below_64 (P : N -> bool) :
  forallb P (map N.of_nat (seq 0 64)) = true ->
  forall n, n < 64 -> P n = true.
Proof.
  intros H n Hn. rewrite forallb_forall in H. apply H.
  rewrite <- (N2Nat.id n). apply in_map. apply in_seq. lia.
Qed.

Lemma b64_index_char n : n < 64 -> b64_index (b64_char n) = Some n.
Proof.
  intros Hn.
  pose proof (below_64
    (fun n => match b64_index (b64_char n) with
              | Some m => N.eqb m n
              | None => false
              end) eq_refl n Hn) as H.
  cbv beta in H. destruct (b64_index (b64_char n)) as [m|]; [|discriminate].
  apply N.eqb_eq in H. now subst.
Qed.

Lemma b64_char_plain n :
  n < 64 ->
  is_ascii_whitespace (b64_char n) = false /\
  Ascii.eqb (b64_char n) "=" = false.
Proof.
  intros Hn.
  pose proof (below_64
    (fun n => negb (is_ascii_whitespace (b64_char n))
              && negb (Ascii.eqb (b64_char n) "=")) eq_refl n Hn) as H.
  cbv beta in H. apply andb_true_iff in H. destruct H as [H1 H2].
  apply negb_true_iff in H1, H2. now split.
Qed.

Lemma encode_groups bytes :
  encode bytes = map b64_char (groups bytes) ++ padding bytes.
Proof.
  induction bytes as [| a | a b | a b c rest IH] using list_ind3;
    try reflexivity.
  cbn [encode groups padding map app]. now rewrite IH.
Qed.

Lemma groups_sextets bytes :
  Forall is_byte bytes -> Forall is_sextet (groups bytes).
Proof.
  unfold is_byte, is_sextet.
  induction bytes as [| a | a b | a b c rest IH] using list_ind3;
    intros H; cbn [groups].
  - constructor.
  - inversion_clear H. repeat constructor; divmod.
  - inversion_clear H as [|? ? Ha H']. inversion_clear H'.
    repeat constructor; divmod.
  - inversion_clear H as [|? ? Ha H']. inversion_clear H' as [|? ? Hb H''].
    inversion_clear H'' as [|? ? Hc Hr].
    repeat (constructor; [divmod|]). now apply IH.
Qed.

Lemma decode_groups bytes :
  Forall is_byte bytes -> decode (groups bytes) = bytes.
Proof.
  unfold is_byte.
  induction bytes as [| a | a b | a b c rest IH] using list_ind3;
    intros H; cbn [groups decode].
  - reflexivity.
  - inversion_clear H. f_equal. divmod.
  - inversion_clear H as [|? ? Ha H']. inversion_clear H'.
    f_equal; [|f_equal]; divmod.
  - inversion_clear H as [|? ? Ha H']. inversion_clear H' as [|? ? Hb H''].
    inversion_clear H'' as [|? ? Hc Hr].
    rewrite (IH Hr). f_equal; [|f_equal; [|f_equal]]; divmod.
Qed.

Lemma sextets_chars ns :
  Forall is_sextet ns -> sextets (map b64_char ns) = Some ns.
Proof.
  induction 1 as [|n ns Hn _ IH]; cbn [map sextets]; [reflexivity|].
  now rewrite (b64_index_char n Hn), IH.
Qed.

Lemma padding_cases bytes :
  padding bytes = [] \/ padding bytes = ["="] \/ padding bytes = ["="; "="].
Proof.
  induction bytes as [| a | a b | a b c rest IH] using list_ind3; cbn; auto.
Qed.

Lemma length_encode bytes : (List.length (encode bytes) mod 4 = 0)%nat.
Proof.
  induction bytes as [| a | a b | a b c rest IH] using list_ind3;
    try reflexivity.
  cbn [encode List.length].
  change (S (S (S (S (List.length (encode rest))))))
    with (4 + List.length (encode rest))%nat.
  divmod.
Qed.

Lemma length_groups bytes : (List.length (groups bytes) mod 4 <> 1)%nat.
Proof.
  induction bytes as [| a | a b | a b c rest IH] using list_ind3;
    try (cbn; lia).
  cbn [groups List.length].
  change (S (S (S (S (List.length (groups rest))))))
    with (4 + List.length (groups rest))%nat.
  divmod.
Qed.

Lemma filter_plain cs :
  Forall (fun c => is_ascii_whitespace c = false) cs ->
  filter (fun c => negb (is_ascii_whitespace c)) cs = cs.
Proof.
  induction 1 as [|c cs Hc _ IH]; cbn [filter]; [reflexivity|].
  now rewrite Hc, IH.
Qed.

Lemma encode_plain bytes :
  Forall is_byte bytes ->
  Forall (fun c => is_ascii_whitespace c = false) (encode bytes).
Proof.
  intros H. rewrite encode_groups. apply Forall_app. split.
  - apply Forall_map. eapply Forall_impl; [|apply (groups_sextets _ H)].
    intros n Hn. now apply b64_char_plain.
  - destruct (padding_cases bytes) as [-> | [-> | ->]];
      repeat constructor.
Qed.

(** The reversal of a list of alphabet characters does not begin with
    "=". *)
Lemma rev_chars_head ns c r :
  Forall is_sextet ns -> rev (map b64_char ns) = c :: r ->
  Ascii.eqb c "=" = false.
Proof.
  intros H E.
  assert (In c (map b64_char ns)) as Hin.
  { apply in_rev. rewrite E. now left. }
  apply in_map_iff in Hin. destruct Hin as (n & <- & Hn).
  rewrite Forall_forall in H. now apply b64_char_plain, H.
Qed.

Lemma strip_padding_encode bytes :
  Forall is_byte bytes ->
  strip_padding (encode bytes) = map b64_char (groups bytes).
Proof.
  intros H. unfold strip_padding. rewrite length_encode. cbn [Nat.eqb].
  rewrite encode_groups, rev_app_distr.
  pose proof (groups_sextets _ H) as Hs.
  destruct (padding_cases bytes) as [-> | [-> | ->]]; cbn [rev app].
  - rewrite app_nil_r.
    destruct (rev (map b64_char (groups bytes))) as [|c r] eqn:E;
      [reflexivity|].
    now rewrite (rev_chars_head _ _ _ Hs E).
  - cbn [Ascii.eqb Bool.eqb].
    destruct (rev (map b64_char (groups bytes))) as [|c r] eqn:E.
    + apply (f_equal (@rev ascii)) in E. rewrite rev_involutive in E.
      now rewrite E.
    + rewrite (rev_chars_head _ _ _ Hs E), <- E. apply rev_involutive.
  - cbn [Ascii.eqb Bool.eqb]. apply rev_involutive.
Qed.

Lemma N_of_ascii_is_byte cs : Forall is_byte (map N_of_ascii cs).
Proof.
  apply Forall_map, Forall_forall. intros c _. apply N_ascii_bounded.
Qed.

(** What [btoa] writes, [atob] reads back. *)
Lemma atob_btoa binary : atob (btoa binary) = Normal binary.
Proof.
  unfold atob, btoa. rewrite list_ascii_of_string_of_list_ascii.
  set (bytes := map N_of_ascii (list_ascii_of_string binary)).
  assert (Forall is_byte bytes) as H by apply N_of_ascii_is_byte.
  rewrite (filter_plain _ (encode_plain _ H)), (strip_padding_encode _ H).
  rewrite length_map.
  destruct (Nat.eqb_spec (List.length (groups bytes) mod 4) 1) as [E|_].
  { now apply length_groups in E. }
  rewrite (sextets_chars _ (groups_sextets _ H)), (decode_groups _ H).
  subst bytes. rewrite map_map.
  rewrite (map_ext _ (fun c => c)) by apply ascii_N_embedding.
  now rewrite map_id, string_of_list_ascii_of_string.
Qed.

End Base64Facts.

(** ** The sample codec *)

Module CodecFacts.

Import Base64 Base64Facts Codec.
Local Open Scope Q_scope.

Lemma Qltb_lt x y : Qltb x y = true <-> x < y.
Proof.
  unfold Qltb. rewrite negb_true_iff, <- not_true_iff_false, Qle_bool_iff.
  split; [apply Qnot_le_lt | apply Qlt_not_le].
Qed.

Lemma Qltb_ge x y : Qltb x y = false <-> y <= x.
Proof.
  unfold Qltb. rewrite negb_false_iff. apply Qle_bool_iff.
Qed.

(** A signed 16-bit value survives the reduction modulo 2^16. *)
Lemma int16_wrap (t : Z) :
  (-32768 <= t <= 32767)%Z ->
  (if 32768 <=? t mod 65536 then t mod 65536 - 65536 else t mod 65536)%Z = t.
Proof.
  intros H. destruct (Z.leb_spec 32768 (t mod 65536)); divmod.
Qed.

Lemma clamp_range x : -1 <= Qmax (-1) (Qmin 1 x) <= 1.
Proof.
  split.
  - apply Q.le_max_l.
  - apply Q.max_lub; [discriminate | apply Q.le_min_l].
Qed.

Lemma clamp_id x : -1 <= x <= 1 -> Qmax (-1) (Qmin 1 x) == x.
Proof.
  intros [H1 H2]. rewrite Q.min_r by assumption. now apply Q.max_r.
Qed.

(** The integral part lies between the integers that bound the number. *)
Lemma floor_between (lo hi : Z) q :
  inject_Z lo <= q <= inject_Z hi -> (lo <= Qfloor q <= hi)%Z.
Proof.
  intros [H1 H2]. apply Qfloor_resp_le in H1, H2.
  now rewrite Qfloor_Z in H1, H2.
Qed.

Lemma ceiling_between (lo hi : Z) q :
  inject_Z lo <= q <= inject_Z hi -> (lo <= Qceiling q <= hi)%Z.
Proof.
  intros [H1 H2]. apply Qceiling_resp_le in H1, H2.
  now rewrite Qceiling_Z in H1, H2.
Qed.

Lemma floor_close q : inject_Z (Qfloor q) <= q /\ q < inject_Z (Qfloor q) + 1.
Proof.
  split; [apply Qfloor_le|].
  pose proof (Qlt_floor q) as H. now rewrite inject_Z_plus in H.
Qed.

Lemma ceiling_close q :
  q <= inject_Z (Qceiling q) /\ inject_Z (Qceiling q) - 1 < q.
Proof.
  split; [apply Qle_ceiling|].
  pose proof (Qceiling_lt q) as H. unfold Z.sub in H.
  now rewrite inject_Z_plus in H.
Qed.

(** The quantization of a clamped sample. *)
Lemma quantize_spec s :
  -1 <= s <= 1 ->
  let v := ToInt16 (if Qltb s 0 then s * 32768 else s * 32767) in
  (-32768 <= v <= 32767)%Z /\
  (s < 0 ->
   s <= inject_Z v / 32768 /\ inject_Z v / 32768 < s + (1 # 32768)) /\
  (0 <= s ->
   s - (1 + s) * (1 # 32768) < inject_Z v / 32768 /\
   inject_Z v / 32768 <= s - s * (1 # 32768)).
Proof.
  intros [Hlo Hhi]. unfold ToInt16, truncate. cbv zeta.
  destruct (Qltb s 0) eqn:Es.
  - apply Qltb_lt in Es.
    assert (Qltb (s * 32768) 0 = true) as -> by (apply Qltb_lt; lra).
    destruct (ceiling_close (s * 32768)) as [Hc1 Hc2].
    assert (-32768 <= Qceiling (s * 32768) <= 0)%Z as Ht.
    { apply ceiling_between. unfold inject_Z. lra. }
    set (t := Qceiling (s * 32768)) in *.
    rewrite (int16_wrap t) by lia.
    split; [lia|]. split; [|lra].
    intros _. unfold Qdiv. change (/ 32768) with (1 # 32768). lra.
  - apply Qltb_ge in Es.
    assert (Qltb (s * 32767) 0 = false) as -> by (apply Qltb_ge; lra).
    destruct (floor_close (s * 32767)) as [Hf1 Hf2].
    assert (0 <= Qfloor (s * 32767) <= 32767)%Z as Ht.
    { apply floor_between. unfold inject_Z. lra. }
    set (t := Qfloor (s * 32767)) in *.
    rewrite (int16_wrap t) by lia.
    split; [lia|]. split; [lra|].
    intros _. unfold Qdiv. change (/ 32768) with (1 # 32768). lra.
Qed.

Lemma pcm16_in_range x : (-32768 <= pcm16_of_sample x <= 32767)%Z.
Proof. apply (quantize_spec _ (clamp_range x)). Qed.

Lemma byte_char_code b :
  (0 <= b < 256)%Z -> charCodeAt (String_fromCharCode b) = b.
Proof.
  intros H. unfold charCodeAt, String_fromCharCode.
  rewrite N_ascii_embedding by lia. lia.
Qed.

Lemma bytes_in_range pcm16 :
  Forall (fun b => 0 <= b < 256)%Z (Uint8Array_of_buffer pcm16).
Proof.
  induction pcm16 as [|v pcm16 IH]; [constructor|].
  cbn [Uint8Array_of_buffer flat_map app].
  repeat (constructor; [divmod|]). exact IH.
Qed.

Lemma char_codes bytes :
  Forall (fun b => 0 <= b < 256)%Z bytes ->
  map charCodeAt (map String_fromCharCode bytes) = bytes.
Proof.
  induction 1 as [|b bytes Hb _ IH]; cbn [map]; [reflexivity|].
  now rewrite (byte_char_code b Hb), IH.
Qed.

(** The two views of one buffer agree. *)
Lemma Int16Array_of_Uint8Array pcm16 :
  Forall (fun v => -32768 <= v <= 32767)%Z pcm16 ->
  Int16Array_of_buffer (Uint8Array_of_buffer pcm16) = Normal pcm16.
Proof.
  induction 1 as [|v pcm16 Hv _ IH]; [reflexivity|].
  cbn [Uint8Array_of_buffer flat_map app Int16Array_of_buffer].
  fold (Uint8Array_of_buffer pcm16). rewrite IH. cbn [bind].
  do 2 f_equal.
  replace ((v mod 65536) mod 256 + 256 * (v mod 65536 / 256))%Z
    with (v mod 65536)%Z by divmod.
  now apply int16_wrap.
Qed.

(** Decoding what [float32ToBase64] wrote gives the quantized samples over
    32768. *)
Lemma decode_encode buffer :
  base64ToFloat32 (float32ToBase64 buffer)
  = Normal (map (fun x => inject_Z (pcm16_of_sample x) / 32768) buffer).
Proof.
  unfold base64ToFloat32, float32ToBase64.
  rewrite atob_btoa. cbn [bind].
  rewrite list_ascii_of_string_of_list_ascii.
  rewrite char_codes by apply bytes_in_range.
  rewrite Int16Array_of_Uint8Array.
  - cbn [bind]. now rewrite map_map.
  - apply Forall_map, Forall_forall. intros x _. apply pcm16_in_range.
Qed.

Example decode_encode_extremes :
  base64ToFloat32 (float32ToBase64 [1; -1; 0; 3; -7 # 2])
  = Normal [32767 # 32768; -32768 # 32768; 0 # 32768; 32767 # 32768;
            -32768 # 32768].
Proof. vm_compute. reflexivity. Qed.

Example encode_extremes : float32ToBase64 [1; -1; 0] = "/38AgAAA"%string.
Proof. vm_compute. reflexivity. Qed.

Example decode_odd_length : base64ToFloat32 "AAAA" = Throw RangeError.
Proof. vm_compute. reflexivity. Qed.

Example decode_not_base64 : base64ToFloat32 "A" = Throw InvalidCharacterError.
Proof. vm_compute. reflexivity. Qed.

(** The products and the quotient of the codec are exact in floating
    point: a binary32 sample times 32768 or 32767 is a binary64 number, and
    a 16-bit value over 32768 is a binary32 number. *)
Lemma scaled_sample_is_exact s :
  binary32 s -> binary64 (s * 32768) /\ binary64 (s * 32767).
Proof.
  intros (m & e & Hm & He & Hs). split.
  - exists (m * 32768)%Z, e. split; [|split].
    + lia.
    + lia.
    + rewrite Hs, inject_Z_mult. unfold Qdiv. ring.
  - exists (m * 32767)%Z, e. split; [|split].
    + lia.
    + lia.
    + rewrite Hs, inject_Z_mult. unfold Qdiv. ring.
Qed.

Lemma decoded_sample_is_exact v :
  (-32768 <= v <= 32767)%Z -> binary32 (inject_Z v / 32768).
Proof.
  intros H. exists v, 15%Z. split; [|split]; [lia | lia | reflexivity].
Qed.

Lemma abs_diff_bound (y x b : Q) :
  x - b <= y -> y <= x + b -> Qabs (y - x) <= b.
Proof.
  intros H1 H2. apply Qabs_Qle_condition. split; lra.
Qed.

(** The error of one sample: below one step for a negative sample, below
    [1 + x] steps for the others. *)
Lemma sample_error x :
  -1 <= x <= 1 ->
  Qabs (inject_Z (pcm16_of_sample x) / 32768 - x) <= (1 # 16384) /\
  (x <= 0 -> Qabs (inject_Z (pcm16_of_sample x) / 32768 - x) <= (1 # 32768)).
Proof.
  intros Hx. pose proof (clamp_id x Hx) as Hs.
  destruct (quantize_spec _ (clamp_range x)) as (_ & Hneg & Hpos).
  fold (pcm16_of_sample x) in Hneg, Hpos.
  set (y := inject_Z (pcm16_of_sample x) / 32768) in *.
  set (s := Qmax (-1) (Qmin 1 x)) in *.
  destruct (Qlt_le_dec s 0) as [Hs0 | Hs0].
  - destruct (Hneg Hs0). split; [|intros _]; apply abs_diff_bound; lra.
  - destruct (Hpos Hs0). split; [|intros Hx0]; apply abs_diff_bound; lra.
Qed.

Lemma max_abs_diff_bound (f : Q -> Q) (b : Q) xs :
  0 <= b -> Forall (fun x => Qabs (f x - x) <= b) xs ->
  max_abs_diff (map f xs) xs <= b.
Proof.
  intros Hb. induction 1 as [|x xs Hx _ IH]; cbn [map max_abs_diff].
  - exact Hb.
  - now apply Q.max_lub.
Qed.

(** Integers compare as their images do. *)
Lemma between_integers (v k : Z) :
  inject_Z k - 1 < inject_Z v -> inject_Z v <= inject_Z k -> v = k.
Proof.
  intros H1 H2. rewrite <- Zle_Qle in H2.
  assert (inject_Z (k - 1) < inject_Z v) as H3.
  { unfold Z.sub. rewrite inject_Z_plus. exact H1. }
  rewrite <- Zlt_Qlt in H3. lia.
Qed.

Lemma between_integers_up (v k : Z) :
  inject_Z k <= inject_Z v -> inject_Z v < inject_Z k + 1 -> v = k.
Proof.
  intros H1 H2. rewrite <- Zle_Qle in H1.
  assert (inject_Z v < inject_Z (k + 1)) as H3.
  { rewrite inject_Z_plus. exact H2. }
  rewrite <- Zlt_Qlt in H3. lia.
Qed.

Lemma pcm16_of_one x : x == 1 -> pcm16_of_sample x = 32767%Z.
Proof.
  intros Hx.
  assert (-1 <= x <= 1) as Hr by (rewrite Hx; split; discriminate).
  pose proof (clamp_id x Hr) as Hs.
  destruct (quantize_spec _ (clamp_range x)) as (_ & _ & Hpos).
  fold (pcm16_of_sample x) in Hpos. unfold Qdiv in Hpos.
  change (/ 32768) with (1 # 32768) in Hpos.
  destruct Hpos as [H1 H2]; [lra|].
  apply between_integers; change (inject_Z 32767) with 32767; lra.
Qed.

Lemma pcm16_of_minus_one x : x == -1 -> pcm16_of_sample x = (-32768)%Z.
Proof.
  intros Hx.
  assert (-1 <= x <= 1) as Hr by (rewrite Hx; split; discriminate).
  pose proof (clamp_id x Hr) as Hs.
  destruct (quantize_spec _ (clamp_range x)) as (_ & Hneg & _).
  fold (pcm16_of_sample x) in Hneg. unfold Qdiv in Hneg.
  change (/ 32768) with (1 # 32768) in Hneg.
  destruct Hneg as [H1 H2]; [lra|].
  apply between_integers_up; change (inject_Z (-32768)) with (-32768); lra.
Qed.

Lemma pcm16_of_zero x : x == 0 -> pcm16_of_sample x = 0%Z.
Proof.
  intros Hx.
  assert (-1 <= x <= 1) as Hr by (rewrite Hx; split; discriminate).
  pose proof (clamp_id x Hr) as Hs.
  destruct (quantize_spec _ (clamp_range x)) as (_ & _ & Hpos).
  fold (pcm16_of_sample x) in Hpos. unfold Qdiv in Hpos.
  change (/ 32768) with (1 # 32768) in Hpos.
  destruct Hpos as [H1 H2]; [lra|].
  apply between_integers; change (inject_Z 0) with 0; lra.
Qed.

(** For a clamped sample the store into the [Int16Array] does not wrap: the
    product is truncated and nothing else. *)
Lemma quantize_no_wrap s :
  -1 <= s <= 1 ->
  let scaled := if Qltb s 0 then s * 32768 else s * 32767 in
  ToInt16 scaled = truncate scaled /\
  (-32768 <= truncate scaled <= 32767)%Z.
Proof.
  intros [Hlo Hhi]. cbv zeta.
  assert (-32768 <= truncate (if Qltb s 0 then s * 32768 else s * 32767)
          <= 32767)%Z as Ht.
  { unfold truncate. destruct (Qltb s 0) eqn:Es.
    - apply Qltb_lt in Es.
      assert (Qltb (s * 32768) 0 = true) as -> by (apply Qltb_lt; lra).
      enough (-32768 <= Qceiling (s * 32768) <= 0)%Z by lia.
      apply ceiling_between. unfold inject_Z. lra.
    - apply Qltb_ge in Es.
      assert (Qltb (s * 32767) 0 = false) as -> by (apply Qltb_ge; lra).
      enough (0 <= Qfloor (s * 32767) <= 32767)%Z by lia.
      apply floor_between. unfold inject_Z. lra. }
  split; [|exact Ht]. unfold ToInt16. cbv zeta. now apply int16_wrap.
Qed.

Lemma Forall2_map (A B : Type) (R : A -> B -> Prop) (f : A -> B) xs :
  (forall x, R x (f x)) -> Forall2 R xs (map f xs).
Proof.
  intros H. induction xs; cbn [map]; constructor; auto.
Qed.

(** C1, as amended.  For every block whose samples lie in [-1, 1], decoding
    what [float32ToBase64] wrote returns a block of the same length that is
    within two quantization steps (1/16384) of the original, sample by
    sample, and within one step (1/32768) when no sample of the block is
    positive. *)
Theorem roundtrip_quantization_bound xs :
  Forall (fun x => -1 <= x <= 1) xs ->
  exists ys,
    base64ToFloat32 (float32ToBase64 xs) = Normal ys /\
    List.length ys = List.length xs /\
    max_abs_diff ys xs <= 1 # 16384 /\
    (Forall (fun x => x <= 0) xs -> max_abs_diff ys xs <= 1 # 32768).
Proof.
  intros H. eexists. split; [apply decode_encode|].
  split; [apply length_map|]. split.
  - apply max_abs_diff_bound; [discriminate|].
    eapply Forall_impl; [|exact H]. intros x Hx. now apply sample_error.
  - intros Hneg. apply max_abs_diff_bound; [discriminate|].
    rewrite Forall_forall in *. intros x Hin.
    now apply sample_error; [apply H | apply Hneg].
Qed.

(** The bound on a block with the samples 1, -1 and 65535/65536. *)
Lemma roundtrip_quantization_bound_witness :
  exists ys,
    base64ToFloat32 (float32ToBase64 [1; -1; 65535 # 65536]) = Normal ys /\
    List.length ys = 3%nat /\
    max_abs_diff ys [1; -1; 65535 # 65536] <= 1 # 16384 /\
    (Forall (fun x => x <= 0) [1; -1; 65535 # 65536] ->
     max_abs_diff ys [1; -1; 65535 # 65536] <= 1 # 32768).
Proof.
  apply (roundtrip_quantization_bound [1; -1; 65535 # 65536]).
  repeat constructor; discriminate.
Defined.

(** C1 as stated fails.  The sample 65535/65536 is a binary32 number in
    [-1, 1]; it is encoded as 32766 and decoded as 32766/32768, which is
    3/65536 away from it, more than 1/32768. *)
Lemma roundtrip_one_step_counterexample :
  Forall (fun x => -1 <= x <= 1) [65535 # 65536] /\
  Forall binary32 [65535 # 65536] /\
  base64ToFloat32 (float32ToBase64 [65535 # 65536])
  = Normal [32766 # 32768] /\
  ~ max_abs_diff [32766 # 32768] [65535 # 65536] <= 1 # 32768 /\
  ~ roundtrip_within (1 # 32768).
Proof.
  assert (base64ToFloat32 (float32ToBase64 [65535 # 65536])
          = Normal [32766 # 32768]) as E by (vm_compute; reflexivity).
  assert (~ max_abs_diff [32766 # 32768] [65535 # 65536] <= 1 # 32768) as N.
  { vm_compute. intros H. now apply H. }
  assert (Forall (fun x => -1 <= x <= 1) [65535 # 65536]) as R.
  { repeat constructor; discriminate. }
  repeat split; try assumption.
  - repeat constructor. exists 65535%Z, 16%Z.
    split; [|split]; [reflexivity | lia | reflexivity].
  - intros C. destruct (C _ R) as (ys & Hys & Hb).
    rewrite E in Hys. injection Hys as <-. contradiction.
Qed.

(** C2.  [float32ToBase64] frames as base64 text the bytes of the 16-bit
    values it computes, and decoding that text gives back, for every sample
    [x], the value [v / 32768] where [v] is the clamped sample [s] times
    32768 (for [s < 0]) or 32767 (otherwise), truncated, a signed 16-bit
    value.  So a sample that is exactly 1 is decoded to at least 0.99996, a
    sample that is exactly -1 to at most -1, and a zero to zero. *)
Theorem encode_clamps_scales_frames buffer :
  float32ToBase64 buffer
  = Base64.btoa
      (string_of_list_ascii
         (map String_fromCharCode
            (Uint8Array_of_buffer (map pcm16_of_sample buffer)))) /\
  exists ys,
    base64ToFloat32 (float32ToBase64 buffer) = Normal ys /\
    Forall2
      (fun x y =>
         let s := Qmax (-1) (Qmin 1 x) in
         let v := truncate (if Qltb s 0 then s * 32768 else s * 32767) in
         -1 <= s <= 1 /\
         (-32768 <= v <= 32767)%Z /\
         y = inject_Z v / 32768 /\
         (x == 1 -> 99996 # 100000 <= y) /\
         (x == -1 -> y <= -1) /\
         (x == 0 -> y == 0))
      buffer ys.
Proof.
  split; [reflexivity|]. eexists. split; [apply decode_encode|].
  apply Forall2_map. intros x. cbv zeta.
  pose proof (clamp_range x) as Hs.
  destruct (quantize_no_wrap _ Hs) as [Hw Ht].
  split; [exact Hs|]. split; [exact Ht|]. split.
  { unfold pcm16_of_sample. now rewrite Hw. }
  split; [|split]; intros Hx.
  - rewrite (pcm16_of_one x Hx). discriminate.
  - rewrite (pcm16_of_minus_one x Hx). discriminate.
  - rewrite (pcm16_of_zero x Hx). reflexivity.
Qed.

End CodecFacts.

(** ** The playback scheduler *)

Module PlayerFacts.

Import Codec CodecFacts Player.
Local Open Scope Q_scope.

Lemma duration_nonneg audioData : 0 <= duration audioData.
Proof.
  unfold duration. apply Qle_shift_div_l; [reflexivity|].
  rewrite Qmult_0_l. change 0 with (inject_Z 0). rewrite <- Zle_Qle. lia.
Qed.

(** The start the catch-up rule picks is the later of the cursor and the
    clock. *)
Lemma catch_up_le c currentTime :
  c <= (if Qltb c currentTime then currentTime else c).
Proof.
  destruct (Qltb c currentTime) eqn:E.
  - apply Qltb_lt in E. now apply Qlt_le_weak.
  - apply Qle_refl.
Qed.

Lemma chained_weaken c c' l : c <= c' -> chained c' l -> chained c l.
Proof.
  destruct l as [|[audioData t] l]; cbn [chained]; [trivial|].
  intros H [H1 H2]. split; [|exact H2]. now apply Qle_trans with c'.
Qed.

(** What one call of [playNextChunk] does to the cursor and to the output:
    it starts nothing, or one block no earlier than the cursor, and leaves
    the cursor at the end of that block. *)
Lemma playNextChunk_cursor currentTime p :
  let p' := state_of (playNextChunk currentTime p) in
  (started p' = started p /\ scheduledTimeRef p' = scheduledTimeRef p) \/
  (exists audioData t,
     started p' = started p ++ [(audioData, t)] /\
     scheduledTimeRef p <= t /\
     scheduledTimeRef p' = t + duration audioData).
Proof.
  unfold playNextChunk.
  destruct (audioQueueRef p) as [|audioData rest]; [now left|].
  destruct (audioContextRef p) as [ctx|]; [|now left].
  destruct audioData as [|sample samples]; [now left|].
  right. eexists _, _. cbn [state_of started scheduledTimeRef].
  split; [reflexivity|]. split; [apply catch_up_le | reflexivity].
Qed.

Ltac after_play :=
  match goal with
  | |- context [playNextChunk ?t ?q] =>
      let H := fresh in
      pose proof (playNextChunk_cursor t q) as H;
      cbn [started scheduledTimeRef] in H; exact H
  end.

Lemma step_cursor p e :
  is_interruption e = false ->
  let p' := step p e in
  (started p' = started p /\ scheduledTimeRef p' = scheduledTimeRef p) \/
  (exists audioData t,
     started p' = started p ++ [(audioData, t)] /\
     scheduledTimeRef p <= t /\
     scheduledTimeRef p' = t + duration audioData).
Proof.
  destruct e as [currentTime audioData | currentTime |]; [| |discriminate];
    intros _; unfold step, handle.
  - unfold enqueueAudio. cbn [isPlayingRef].
    destruct (isPlayingRef p); cbn [negb]; [now left | after_play].
  - unfold onended. destruct (pending p); [now left | after_play].
Qed.

Lemma run_cons e evs p : run (e :: evs) p = run evs (step p e).
Proof. reflexivity. Qed.

(** C5.  Over any events without an interruption the cursor does not
    decrease, and the blocks started meanwhile are chained: the first
    starts no earlier than the cursor stood, every next one no earlier than
    the start of the previous one plus its duration. *)
Theorem cursor_monotone evs : forall p,
  no_interruption evs = true ->
  scheduledTimeRef p <= scheduledTimeRef (run evs p) /\
  exists l,
    started (run evs p) = started p ++ l /\
    chained (scheduledTimeRef p) l.
Proof.
  induction evs as [|e evs IH]; intros p H.
  - split; [apply Qle_refl|]. exists []. now rewrite app_nil_r.
  - cbn [no_interruption forallb] in H. apply andb_true_iff in H.
    destruct H as [He Hevs]. apply negb_true_iff in He.
    rewrite run_cons. destruct (IH (step p e) Hevs) as (Hc & l & Hl & Hch).
    destruct (step_cursor p e He) as [[Es Ec] | (audioData & t & Es & Ht & Ec)].
    + rewrite Ec in Hc, Hch. rewrite Es in Hl. eauto.
    + rewrite Ec in Hc, Hch. split.
      * apply Qle_trans with t; [exact Ht|].
        apply Qle_trans with (t + duration audioData); [|exact Hc].
        pose proof (duration_nonneg audioData). lra.
      * exists ((audioData, t) :: l). split.
        -- rewrite Hl, Es, <- app_assoc. reflexivity.
        -- cbn [chained]. now split.
Qed.

(** Two blocks enqueued on a fresh player with a context, then two sources ending. *)
Lemma cursor_monotone_witness :
  let evs := [Enqueue 0 [1 # 2; 1 # 4]; Enqueue (1 # 10) [0]; Ended 5;
              Ended 7] in
  scheduledTimeRef (createAudioContext mounted)
  <= scheduledTimeRef (run evs (createAudioContext mounted)) /\
  exists l,
    started (run evs (createAudioContext mounted))
    = started (createAudioContext mounted) ++ l /\
    chained (scheduledTimeRef (createAudioContext mounted)) l.
Proof.
  apply (cursor_monotone
           [Enqueue 0 [1 # 2; 1 # 4]; Enqueue (1 # 10) [0]; Ended 5; Ended 7]
           (createAudioContext mounted)).
  reflexivity.
Defined.

(** C3.  When [playNextChunk] finds a context and, at the head of the
    queue, a block that has a sample, it returns, having started that block
    at the cursor, or at the clock reading when the cursor was behind it,
    and having advanced the cursor from that start by the length of the
    block over 24000.  So such a block enqueued on an idle player whose
    cursor is behind the clock starts at the clock reading. *)
Theorem catch_up_scheduling currentTime audioData ctx :
  audioData <> [] ->
  (forall p rest,
     audioContextRef p = Some ctx ->
     audioQueueRef p = audioData :: rest ->
     exists p' t,
       playNextChunk currentTime p = Returned p' /\
       (scheduledTimeRef p < currentTime -> t = currentTime) /\
       (currentTime <= scheduledTimeRef p -> t = scheduledTimeRef p) /\
       started p' = started p ++ [(audioData, t)] /\
       scheduledTimeRef p'
       = t + inject_Z (Z.of_nat (List.length audioData)) / 24000 /\
       audioQueueRef p' = rest) /\
  (forall p,
     audioContextRef p = Some ctx ->
     isPlayingRef p = false ->
     audioQueueRef p = [] ->
     scheduledTimeRef p < currentTime ->
     exists p',
       enqueueAudio currentTime audioData p = Returned p' /\
       started p' = started p ++ [(audioData, currentTime)] /\
       scheduledTimeRef p'
       = currentTime + inject_Z (Z.of_nat (List.length audioData)) / 24000 /\
       audioQueueRef p' = []).
Proof.
  intros Hsamples.
  destruct audioData as [|sample samples]; [contradiction|]. split.
  - intros p rest Hctx Hq. unfold playNextChunk. rewrite Hq, Hctx.
    eexists _, _. split; [reflexivity|].
    cbn [started scheduledTimeRef audioQueueRef].
    split; [|split]; [| |repeat split].
    + intros H. apply Qltb_lt in H. now rewrite H.
    + intros H. apply Qltb_ge in H. now rewrite H.
  - intros p Hctx Hidle Hq Hlt. unfold enqueueAudio. cbn [isPlayingRef].
    rewrite Hidle. cbn [negb]. unfold playNextChunk.
    cbn [audioQueueRef audioContextRef scheduledTimeRef started pending].
    rewrite Hq, Hctx. cbn [app]. apply Qltb_lt in Hlt. rewrite Hlt.
    eexists. split; [reflexivity|]. now cbn.
Qed.

(** A cursor at 3 and a clock at 10: the block starts at 10. *)
Lemma catch_up_scheduling_witness :
  let ctx := {| sampleRate := 16000 |} in
  let stale :=
    {| audioContextRef := Some ctx; audioQueueRef := []; isPlayingRef := false;
       scheduledTimeRef := 3; isSpeaking := false; started := [];
       pending := O |} in
  (exists p' t,
     playNextChunk 10 (with_cursor 3 [[1 # 2]; [1 # 4]] stale) = Returned p' /\
     (3 < 10 -> t = 10) /\ (10 <= 3 -> t = 3) /\
     started p' = [([1 # 2], t)] /\
     scheduledTimeRef p' = t + inject_Z 1 / 24000 /\
     audioQueueRef p' = [[1 # 4]]) /\
  (exists p',
     enqueueAudio 10 [1 # 2] stale = Returned p' /\
     started p' = [([1 # 2], 10)] /\
     scheduledTimeRef p' = 10 + inject_Z 1 / 24000 /\
     audioQueueRef p' = []).
Proof.
  intros ctx stale.
  destruct (catch_up_scheduling 10 [1 # 2] ctx) as [Hplay Henqueue];
    [discriminate|]. split.
  - exact (Hplay (with_cursor 3 [[1 # 2]; [1 # 4]] stale) [[1 # 4]]
             eq_refl eq_refl).
  - exact (Henqueue stale eq_refl eq_refl eq_refl eq_refl).
Defined.

(** Audio that arrives before [startAudioCapture] has made the context is
    lost: the call on null throws after the block was taken off the queue
    and the player was marked playing, and no later block is started. *)
Example audio_before_context :
  playNextChunk 0 (with_cursor 0 [[1 # 2]] mounted)
  = Threw TypeError
      {| audioContextRef := None; audioQueueRef := []; isPlayingRef := true;
         scheduledTimeRef := 0; isSpeaking := true; started := [];
         pending := O |} /\
  started (run [Enqueue 0 [1 # 2]; Enqueue 1 [1 # 4]; Ended 2] mounted) = [].
Proof. split; reflexivity. Qed.

(** *** First in, first out *)

Lemma with_samples_app l1 l2 :
  with_samples l1 -> with_samples l2 -> with_samples (l1 ++ l2).
Proof. unfold with_samples. intros H1 H2. apply Forall_app. now split. Qed.

Lemma enqueued_cons e evs : enqueued (e :: evs) = enqueued [e] ++ enqueued evs.
Proof. destruct e; reflexivity. Qed.

Lemma run_app evs1 evs2 p : run (evs1 ++ evs2) p = run evs2 (run evs1 p).
Proof. apply fold_left_app. Qed.

Lemma playNextChunk_fifo currentTime p ctx :
  audioContextRef p = Some ctx ->
  with_samples (audioQueueRef p) ->
  let p' := state_of (playNextChunk currentTime p) in
  audioContextRef p' = Some ctx /\
  with_samples (audioQueueRef p') /\
  output p' ++ audioQueueRef p' = output p ++ audioQueueRef p /\
  ((isPlayingRef p' = true /\ pending p' = S (pending p)) \/
   (isPlayingRef p' = false /\ pending p' = pending p /\
    audioQueueRef p' = [])).
Proof.
  intros Hctx Hs. unfold playNextChunk, output.
  destruct (audioQueueRef p) as [|audioData rest] eqn:Hq.
  - cbn. split; [exact Hctx|]. split; [constructor|].
    split; [reflexivity|]. right. auto.
  - rewrite Hctx. inversion_clear Hs as [|? ? Hhead Hrest].
    destruct audioData as [|sample samples]; [contradiction|].
    cbn. rewrite map_app, <- app_assoc. cbn.
    split; [reflexivity|]. split; [exact Hrest|].
    split; [reflexivity|]. left. auto.
Qed.

Ltac after_play_fifo ctx Hctx Hs :=
  match goal with
  | |- context [playNextChunk ?t ?q] =>
      let H := fresh in
      pose proof (playNextChunk_fifo t q ctx Hctx Hs) as H;
      cbv zeta in H; unfold output in H;
      cbn [audioContextRef audioQueueRef started pending] in H
  end.

Lemma step_fifo p e ctx :
  is_interruption e = false ->
  audioContextRef p = Some ctx ->
  consistent p ->
  with_samples (audioQueueRef p) ->
  with_samples (enqueued [e]) ->
  audioContextRef (step p e) = Some ctx /\
  consistent (step p e) /\
  with_samples (audioQueueRef (step p e)) /\
  output (step p e) ++ audioQueueRef (step p e)
  = output p ++ audioQueueRef p ++ enqueued [e].
Proof.
  intros He Hctx Hcons Hs Hb. unfold consistent in *.
  destruct e as [currentTime audioData | currentTime |]; [| |discriminate];
    unfold step, handle; cbn [enqueued] in *.
  - assert (Hs' : with_samples (audioQueueRef p ++ [audioData]))
      by now apply with_samples_app.
    unfold enqueueAudio. cbn [isPlayingRef].
    destruct Hcons as [[Hp Hn] | (Hp & Hn & Hq)]; rewrite Hp; cbn [negb].
    + cbn [state_of]. unfold output.
      cbn [audioContextRef isPlayingRef pending audioQueueRef started].
      intuition auto.
    + after_play_fifo ctx Hctx Hs'. unfold output. intuition congruence.
  - rewrite app_nil_r. unfold onended.
    destruct Hcons as [[Hp Hn] | (Hp & Hn & Hq)]; rewrite Hn.
    + after_play_fifo ctx Hctx Hs. unfold output. intuition congruence.
    + cbn [state_of]. intuition auto.
Qed.

Lemma fifo_invariant evs : forall p ctx,
  no_interruption evs = true ->
  audioContextRef p = Some ctx ->
  consistent p ->
  with_samples (audioQueueRef p) ->
  with_samples (enqueued evs) ->
  audioContextRef (run evs p) = Some ctx /\
  consistent (run evs p) /\
  with_samples (audioQueueRef (run evs p)) /\
  output (run evs p) ++ audioQueueRef (run evs p)
  = output p ++ audioQueueRef p ++ enqueued evs.
Proof.
  induction evs as [|e evs IH]; intros p ctx H Hctx Hcons Hs Hb.
  - cbn. now rewrite app_nil_r.
  - cbn [no_interruption forallb] in H. apply andb_true_iff in H.
    destruct H as [He Hevs]. apply negb_true_iff in He.
    rewrite enqueued_cons in Hb. apply Forall_app in Hb.
    destruct Hb as [Hb Hbs].
    destruct (step_fifo p e ctx He Hctx Hcons Hs Hb)
      as (Hctx' & Hcons' & Hs' & Hout).
    rewrite run_cons.
    destruct (IH (step p e) ctx Hevs Hctx' Hcons' Hs' Hbs)
      as (H1 & H2 & H3 & H4).
    split; [exact H1|]. split; [exact H2|]. split; [exact H3|].
    rewrite H4, app_assoc, Hout, <- !app_assoc. f_equal. f_equal.
    destruct e; reflexivity.
Qed.

Lemma idle_stable t k p :
  pending p = O -> run (repeat (Ended t) k) p = p.
Proof.
  intros Hn. induction k as [|k IH]; [reflexivity|].
  cbn [repeat]. rewrite run_cons.
  replace (step p (Ended t)) with p; [exact IH|].
  unfold step, handle, onended. now rewrite Hn.
Qed.

Lemma run_ended t n p :
  run (repeat (Ended t) (S n)) p = run (repeat (Ended t) n) (step p (Ended t)).
Proof. reflexivity. Qed.

(** Once the outstanding sources have ended one after the other, the queue
    is empty and everything that was in it has been handed to the device. *)
Lemma drain t n : forall p ctx,
  audioContextRef p = Some ctx ->
  consistent p ->
  with_samples (audioQueueRef p) ->
  (List.length (audioQueueRef p) <= n)%nat ->
  pending (run (repeat (Ended t) (S n)) p) = O /\
  audioQueueRef (run (repeat (Ended t) (S n)) p) = [] /\
  output (run (repeat (Ended t) (S n)) p) = output p ++ audioQueueRef p.
Proof.
  induction n as [|n IH]; intros p ctx Hctx Hcons Hs Hlen;
    (destruct Hcons as [[Hp Hn] | (Hp & Hn & Hq)];
     [|rewrite (idle_stable t _ p Hn), Hq, app_nil_r; auto]);
    rewrite run_ended;
    unfold step, handle, onended; rewrite Hn;
    unfold playNextChunk; cbn [audioQueueRef audioContextRef];
    destruct (audioQueueRef p) as [|b rest] eqn:Hq; cbn [state_of].
  - unfold output. cbn. rewrite app_nil_r. auto.
  - cbn in Hlen. lia.
  - rewrite idle_stable by reflexivity. unfold output. cbn.
    rewrite app_nil_r. auto.
  - rewrite Hctx. inversion_clear Hs as [|? ? Hhead Hrest].
    destruct b as [|sample samples]; [contradiction|]. cbn [state_of].
    match goal with
    | |- context [run _ ?q] =>
        destruct (IH q ctx eq_refl) as (H1 & H2 & H3);
          [left; split; reflexivity | exact Hrest | cbn in Hlen |-*; lia |]
    end.
    rewrite H1, H2, H3. unfold output. cbn [started audioQueueRef].
    rewrite map_app, <- app_assoc. auto.
Qed.

(** With a context, and fed blocks that have samples, the bookkeeping of
    the player stays consistent under every event, an interruption
    included. *)
Lemma consistent_run evs : forall p ctx,
  audioContextRef p = Some ctx ->
  consistent p ->
  with_samples (audioQueueRef p) ->
  with_samples (enqueued evs) ->
  audioContextRef (run evs p) = Some ctx /\ consistent (run evs p) /\
  with_samples (audioQueueRef (run evs p)).
Proof.
  induction evs as [|e evs IH]; intros p ctx Hctx Hcons Hs Hb; [now split|].
  rewrite enqueued_cons in Hb. apply Forall_app in Hb. destruct Hb as [Hb Hbs].
  rewrite run_cons. destruct (is_interruption e) eqn:He.
  - destruct e; try discriminate.
    apply (IH _ ctx); [exact Hctx | | constructor | exact Hbs].
    unfold step, handle, consistent in *. cbn. intuition auto.
  - destruct (step_fifo p e ctx He Hctx Hcons Hs Hb) as (H1 & H2 & H3 & _).
    now apply (IH _ ctx).
Qed.

Lemma ready_consistent :
  audioContextRef ready = Some {| sampleRate := 16000 |} /\
  consistent ready /\ with_samples (audioQueueRef ready).
Proof.
  split; [reflexivity|]. split; [right; repeat split; reflexivity|].
  constructor.
Qed.

(** C6, with its preconditions.  Take the hook in any state it reaches
    after its audio context was made, and feed it blocks that have samples,
    with no interruption.  Then the blocks handed to the output device
    followed by the blocks still queued are the blocks that were there
    followed by the blocks enqueued, in the order of the calls; when no
    source is outstanding nothing is left in the queue; and once the
    outstanding sources have ended, the device has been handed every block,
    each once and in that order. *)
Theorem fifo_playback pre evs :
  with_samples (enqueued pre) ->
  with_samples (enqueued evs) ->
  no_interruption evs = true ->
  let p := run pre ready in
  output (run evs p) ++ audioQueueRef (run evs p)
  = output p ++ audioQueueRef p ++ enqueued evs /\
  (pending (run evs p) = O ->
   output (run evs p) = output p ++ audioQueueRef p ++ enqueued evs) /\
  (forall t,
     output
       (run (repeat (Ended t) (S (List.length (audioQueueRef (run evs p)))))
            (run evs p))
     = output p ++ audioQueueRef p ++ enqueued evs).
Proof.
  intros Hpre Hevs H p.
  destruct ready_consistent as (Hctx0 & Hcons0 & Hs0).
  destruct (consistent_run pre ready _ Hctx0 Hcons0 Hs0 Hpre)
    as (Hctx & Hcons & Hs). fold p in Hctx, Hcons, Hs.
  destruct (fifo_invariant evs p _ H Hctx Hcons Hs Hevs)
    as (Hctx' & Hcons' & Hs' & Hout).
  split; [exact Hout|]. split.
  - intros Hn. destruct Hcons' as [[_ Hn'] | (_ & _ & Hq)]; [congruence|].
    now rewrite Hq, app_nil_r in Hout.
  - intros t.
    destruct (drain t _ (run evs p) _ Hctx' Hcons' Hs' (le_n _))
      as (_ & _ & Hd).
    now rewrite Hd.
Qed.

(** After a flush that left a source playing: three blocks, two of them
    enqueued while a source is outstanding. *)
Lemma fifo_playback_witness :
  let a := [1 # 2; 1 # 4] in
  let b := [0] in
  let c := [-1; 1] in
  let pre := [Enqueue 0 [1 # 8]; Enqueue 0 [1 # 16]; Interrupted] in
  let evs := [Enqueue 1 a; Enqueue 2 b; Ended 3; Enqueue 4 c; Ended 5] in
  let p := run pre ready in
  output (run evs p) ++ audioQueueRef (run evs p)
  = [[1 # 8]] ++ [] ++ [a; b; c] /\
  (pending (run evs p) = O ->
   output (run evs p) = [[1 # 8]] ++ [] ++ [a; b; c]) /\
  (forall t,
     output
       (run (repeat (Ended t) (S (List.length (audioQueueRef (run evs p)))))
            (run evs p))
     = [[1 # 8]] ++ [] ++ [a; b; c]).
Proof.
  intros a b c pre evs p.
  apply (fifo_playback pre evs).
  - repeat constructor; discriminate.
  - repeat constructor; discriminate.
  - reflexivity.
Defined.

(** C6 as it is worded fails in two ways.  A block of no samples makes
    [createBuffer] throw with the player marked playing and no source
    outstanding: that block and every later one stay away from the device.
    And audio that arrives before the context exists is taken off the queue
    and lost in the same way. *)
Lemma fifo_playback_counterexample :
  (let evs := [Enqueue 0 []; Enqueue 1 [1 # 2]; Ended 2; Ended 3] in
   no_interruption evs = true /\
   enqueued evs = [[]; [1 # 2]] /\
   handle (Enqueue 0 []) ready
   = Threw NotSupportedError
       {| audioContextRef := Some {| sampleRate := 16000 |};
          audioQueueRef := []; isPlayingRef := true; scheduledTimeRef := 0;
          isSpeaking := true; started := []; pending := O |} /\
   output (run evs ready) = [] /\
   audioQueueRef (run evs ready) = [[1 # 2]] /\
   pending (run evs ready) = O) /\
  (let evs := [Enqueue 0 [1 # 2]; Enqueue 1 [1 # 4]; Ended 2; Ended 3] in
   no_interruption evs = true /\
   enqueued evs = [[1 # 2]; [1 # 4]] /\
   output (run evs mounted) = [] /\
   audioQueueRef (run evs mounted) = [[1 # 4]] /\
   pending (run evs mounted) = O).
Proof. repeat split. Qed.

(** Whatever the events and the blocks, at most one source is outstanding,
    and an idle player has an empty queue and no source. *)
Lemma pending_step p e :
  ((pending p <= 1)%nat /\
   (isPlayingRef p = false -> audioQueueRef p = [] /\ pending p = O)) ->
  (pending (step p e) <= 1)%nat /\
  (isPlayingRef (step p e) = false ->
   audioQueueRef (step p e) = [] /\ pending (step p e) = O).
Proof.
  intros [Hn Hidle].
  destruct e as [currentTime audioData | currentTime |];
    unfold step, handle.
  - unfold enqueueAudio. cbn [isPlayingRef].
    destruct (isPlayingRef p) eqn:Hp; cbn [negb state_of].
    + cbn. split; [exact Hn | discriminate].
    + destruct (Hidle eq_refl) as [Hq H0]. unfold playNextChunk.
      cbn [audioQueueRef audioContextRef pending]. rewrite Hq, H0. cbn [app].
      destruct (audioContextRef p); [destruct audioData|]; cbn;
        (split; [lia | discriminate]).
  - unfold onended. destruct (pending p) as [|n] eqn:Hpn;
      [cbn [state_of]; rewrite Hpn; split; [lia | exact Hidle]|].
    assert (n = O) by lia. subst n. unfold playNextChunk.
    cbn [audioQueueRef audioContextRef pending].
    destruct (audioQueueRef p) as [|b rest]; [cbn; auto|].
    destruct (audioContextRef p); [destruct b|]; cbn;
      (split; [lia | discriminate]).
  - cbn. split; [exact Hn|]. intros Hp. destruct (Hidle Hp) as [_ H0]. auto.
Qed.

Lemma pending_run evs : forall p,
  ((pending p <= 1)%nat /\
   (isPlayingRef p = false -> audioQueueRef p = [] /\ pending p = O)) ->
  (pending (run evs p) <= 1)%nat /\
  (isPlayingRef (run evs p) = false ->
   audioQueueRef (run evs p) = [] /\ pending (run evs p) = O).
Proof.
  induction evs as [|e evs IH]; intros p H; [exact H|].
  rewrite run_cons. apply IH. now apply pending_step.
Qed.

(** *** After a flush *)

Lemma playNextChunk_from_zero currentTime q :
  scheduledTimeRef q = 0 -> 0 <= currentTime ->
  let q' := state_of (playNextChunk currentTime q) in
  (started q' = started q /\ scheduledTimeRef q' = 0) \/
  (exists audioData t,
     started q' = started q ++ [(audioData, t)] /\ t == currentTime).
Proof.
  intros Hc Ht. unfold playNextChunk.
  destruct (audioQueueRef q) as [|audioData rest]; [now left|].
  destruct (audioContextRef q) as [ctx|]; [|now left].
  destruct audioData as [|sample samples]; [now left|].
  right. eexists _, _. cbn [state_of started]. split; [reflexivity|].
  rewrite Hc. destruct (Qltb 0 currentTime) eqn:E; [reflexivity|].
  apply Qltb_ge in E. now apply Qle_antisym.
Qed.

Lemma step_from_zero q e :
  scheduledTimeRef q = 0 -> 0 <= clock e ->
  (started (step q e) = started q /\ scheduledTimeRef (step q e) = 0) \/
  (exists audioData t,
     started (step q e) = started q ++ [(audioData, t)] /\ t == clock e).
Proof.
  intros Hc Ht.
  destruct e as [currentTime audioData | currentTime |];
    unfold step, handle; cbn [clock] in *.
  - unfold enqueueAudio. cbn [isPlayingRef].
    destruct (isPlayingRef q); cbn [negb]; [now left|].
    match goal with
    | |- context [playNextChunk ?t ?r] =>
        apply (playNextChunk_from_zero t r Hc Ht)
    end.
  - unfold onended. destruct (pending q); [now left|].
    match goal with
    | |- context [playNextChunk ?t ?r] =>
        apply (playNextChunk_from_zero t r Hc Ht)
    end.
  - now left.
Qed.

(** From a cursor at zero and with clock readings that are not negative,
    the first block that is started starts at the reading of the event
    that starts it. *)
Lemma first_start_at_clock evs : forall q,
  scheduledTimeRef q = 0 ->
  Forall (fun e => 0 <= clock e) evs ->
  started (run evs q) = started q \/
  exists evs1 e evs2 audioData t,
    evs = evs1 ++ e :: evs2 /\
    started (run evs1 q) = started q /\
    started (run (evs1 ++ [e]) q) = started q ++ [(audioData, t)] /\
    t == clock e.
Proof.
  induction evs as [|e evs IH]; intros q Hc Hevs; [now left|].
  inversion_clear Hevs as [|? ? He Hrest].
  destruct (step_from_zero q e Hc He) as [[Hs Hc'] | (b & t & Hs & Ht)].
  - rewrite run_cons.
    destruct (IH (step q e) Hc' Hrest)
      as [H | (evs1 & e' & evs2 & b & t & H1 & H2 & H3 & H4)].
    + left. now rewrite H.
    + right. exists (e :: evs1), e', evs2, b, t. subst evs.
      rewrite <- app_comm_cons, !run_cons. rewrite <- Hs. auto.
  - right. exists [], e, evs, b, t. auto.
Qed.

End PlayerFacts.

(** ** The inbound dispatch *)

Module InboundFacts.

Import Codec CodecFacts Player PlayerFacts Session Inbound.
Local Open Scope Q_scope.

(** A message that signals an interruption leaves, when its handler
    returns, a playback state that [clearAudioQueue] wrote last. *)
Lemma interrupted_message_clears currentTime m h h' :
  is_interrupted m = true ->
  onmessage currentTime (Some m) h = Returned h' ->
  exists p, playback h' = clearAudioQueue p.
Proof.
  intros Hi. unfold onmessage, and_then, dispatch_interrupted. rewrite Hi.
  destruct (dispatch_audio currentTime m h) as [h1 | e h1]; [|discriminate].
  intros [= <-]. now exists (playback h1).
Qed.

(** A block with a sample enqueued on an idle player whose cursor is zero
    starts at the clock reading. *)
Lemma enqueue_from_zero ctx now audioData q :
  audioContextRef q = Some ctx ->
  isPlayingRef q = false ->
  audioQueueRef q = [] ->
  scheduledTimeRef q = 0 ->
  audioData <> [] ->
  0 <= now ->
  exists q' t,
    enqueueAudio now audioData q = Returned q' /\
    started q' = started q ++ [(audioData, t)] /\
    t == now /\
    scheduledTimeRef q' == now + duration audioData /\
    audioQueueRef q' = [].
Proof.
  intros Hctx Hidle Hq Hc Hs Hnow.
  destruct audioData as [|sample samples]; [contradiction|].
  unfold enqueueAudio. cbn [isPlayingRef]. rewrite Hidle. cbn [negb].
  unfold playNextChunk.
  cbn [audioQueueRef audioContextRef scheduledTimeRef started pending].
  rewrite Hq, Hctx, Hc. cbn [app].
  eexists _, _. split; [reflexivity|].
  cbn [started scheduledTimeRef audioQueueRef].
  assert (Ht : (if Qltb 0 now then now else 0) == now).
  { destruct (Qltb 0 now) eqn:E; [reflexivity|].
    apply Qltb_ge in E. now apply Qle_antisym. }
  split; [reflexivity|]. split; [exact Ht|]. split; [|reflexivity].
  apply Qplus_comp; [exact Ht | reflexivity].
Qed.

(** A block with a sample enqueued while a source is playing, on a queue
    that is empty and a cursor that is zero, starts at the clock reading of
    the [onended] of that source. *)
Lemma chained_from_zero ctx t0 now audioData n q :
  audioContextRef q = Some ctx ->
  isPlayingRef q = true ->
  pending q = S n ->
  audioQueueRef q = [] ->
  scheduledTimeRef q = 0 ->
  audioData <> [] ->
  0 <= now ->
  exists t,
    started (run [Enqueue t0 audioData; Ended now] q)
    = started q ++ [(audioData, t)] /\
    t == now /\
    scheduledTimeRef (run [Enqueue t0 audioData; Ended now] q)
    == now + duration audioData.
Proof.
  intros Hctx Hp Hn Hq Hc Hs Hnow.
  destruct audioData as [|sample samples]; [contradiction|].
  assert (Ht : (if Qltb 0 now then now else 0) == now).
  { destruct (Qltb 0 now) eqn:E; [reflexivity|].
    apply Qltb_ge in E. now apply Qle_antisym. }
  exists (if Qltb 0 now then now else 0).
  unfold run. cbn [fold_left]. unfold step, handle, enqueueAudio.
  cbn [isPlayingRef]. rewrite Hp. cbn [negb state_of].
  unfold onended. cbn [pending]. rewrite Hn.
  unfold playNextChunk.
  cbn [audioQueueRef audioContextRef scheduledTimeRef started pending].
  rewrite Hq, Hctx, Hc. cbn [app state_of started scheduledTimeRef].
  split; [reflexivity|]. split; [exact Ht|].
  apply Qplus_comp; [exact Ht | reflexivity].
Qed.

(** C4.  When the handler of a message that signals an interruption
    returns, the queue is empty and the cursor is zero.  That state does not
    depend on the cursor or on the queue before [clearAudioQueue]; and from
    it, with clock readings that are not negative, the first block started
    afterwards starts at the clock reading of the event that starts it.
    With a context, a block with a sample that is enqueued after the flush
    is started: at the clock reading of the call when the player is idle,
    and at the clock reading of the [onended] of the source in flight when
    one is playing; the cursor then stands one block after that reading,
    wherever it stood before the flush. *)
Theorem interruption_flush p :
  (forall currentTime m h h',
     is_interrupted m = true ->
     onmessage currentTime (Some m) h = Returned h' ->
     audioQueueRef (playback h') = [] /\
     scheduledTimeRef (playback h') = 0) /\
  audioQueueRef (clearAudioQueue p) = [] /\
  scheduledTimeRef (clearAudioQueue p) = 0 /\
  (forall c queue,
     clearAudioQueue (with_cursor c queue p) = clearAudioQueue p) /\
  (forall evs,
     Forall (fun e => 0 <= clock e) evs ->
     started (run evs (clearAudioQueue p)) = started p \/
     exists evs1 e evs2 audioData t,
       evs = evs1 ++ e :: evs2 /\
       started (run evs1 (clearAudioQueue p)) = started p /\
       started (run (evs1 ++ [e]) (clearAudioQueue p))
       = started p ++ [(audioData, t)] /\
       t == clock e) /\
  (forall ctx now audioData,
     audioContextRef p = Some ctx ->
     isPlayingRef p = false ->
     audioData <> [] ->
     0 <= now ->
     exists p' t,
       enqueueAudio now audioData (clearAudioQueue p) = Returned p' /\
       started p' = started p ++ [(audioData, t)] /\
       t == now /\
       scheduledTimeRef p' == now + duration audioData /\
       audioQueueRef p' = []) /\
  (forall ctx t0 now audioData n,
     audioContextRef p = Some ctx ->
     isPlayingRef p = true ->
     pending p = S n ->
     audioData <> [] ->
     0 <= now ->
     exists t,
       started (run [Enqueue t0 audioData; Ended now] (clearAudioQueue p))
       = started p ++ [(audioData, t)] /\
       t == now /\
       scheduledTimeRef
         (run [Enqueue t0 audioData; Ended now] (clearAudioQueue p))
       == now + duration audioData).
Proof.
  split; [|split; [|split; [|split; [|split; [|split]]]]]; try reflexivity.
  - intros currentTime m h h' Hi Hr.
    destruct (interrupted_message_clears currentTime m h h' Hi Hr) as [p1 ->].
    now split.
  - intros evs Hevs.
    apply (first_start_at_clock evs (clearAudioQueue p) eq_refl Hevs).
  - intros ctx now audioData Hctx Hidle Hs Hnow.
    apply (enqueue_from_zero ctx now audioData (clearAudioQueue p));
      auto.
  - intros ctx t0 now audioData n Hctx Hp Hn Hs Hnow.
    apply (chained_from_zero ctx t0 now audioData n (clearAudioQueue p));
      auto.
Qed.

(** A flush at cursor 40, then a block enqueued at 12 and started at 13. *)
Lemma interruption_flush_witness :
  let ctx := {| sampleRate := 16000 |} in
  let p :=
    {| audioContextRef := Some ctx; audioQueueRef := [[1 # 2]; [1 # 4]];
       isPlayingRef := true; scheduledTimeRef := 40; isSpeaking := true;
       started := [([1], 39)]; pending := 1 |} in
  let h := {| session :=
                {| wsRef := None; isConnected := true; error := None;
                   logs := []; isVideoEnabled := true; constructed := [] |};
              playback := p |} in
  let evs := [Enqueue 12 [1 # 8]; Ended 13; Ended 14] in
  (exists h',
     onmessage 12 (Some (server_turn [] true)) h = Returned h' /\
     audioQueueRef (playback h') = [] /\
     scheduledTimeRef (playback h') = 0) /\
  (started (run evs (clearAudioQueue p)) = started p \/
   exists evs1 e evs2 audioData t,
     evs = evs1 ++ e :: evs2 /\
     started (run evs1 (clearAudioQueue p)) = started p /\
     started (run (evs1 ++ [e]) (clearAudioQueue p))
     = started p ++ [(audioData, t)] /\
     t == clock e) /\
  (exists t,
     started (run [Enqueue 12 [1 # 8]; Ended 13] (clearAudioQueue p))
     = started p ++ [([1 # 8], t)] /\
     t == 13 /\
     scheduledTimeRef (run [Enqueue 12 [1 # 8]; Ended 13] (clearAudioQueue p))
     == 13 + duration [1 # 8]).
Proof.
  intros ctx p h evs.
  destruct (interruption_flush p) as (Hmsg & _ & _ & _ & Hfirst & _ & Hbusy).
  split; [|split].
  - eexists. split; [reflexivity|].
    apply (Hmsg 12 (server_turn [] true) h); reflexivity.
  - apply Hfirst. repeat constructor; discriminate.
  - apply (Hbusy ctx 12 13 [1 # 8] O); try reflexivity; discriminate.
Defined.

(** C10.  The handler looks at the first part of a turn only: a turn with
    further parts is handled as the turn with its first part alone, in both
    revisions of the hook.  When the first part has inline data that
    decodes, the audio branch is the enqueueing of that one block; when
    the first part has no inline data, nothing is decoded or enqueued,
    whatever the other parts carry.  In the earlier revision the whole
    handler is then that enqueueing, or nothing, followed by the flush when
    the turn signals an interruption. *)
Theorem only_first_part_is_played currentTime part0 rest interrupted h :
  onmessage currentTime (Some (server_turn (part0 :: rest) interrupted)) h
  = onmessage currentTime (Some (server_turn [part0] interrupted)) h /\
  onmessage_early currentTime (server_turn (part0 :: rest) interrupted)
                  (playback h)
  = onmessage_early currentTime (server_turn [part0] interrupted)
                    (playback h) /\
  (forall inline pcmData,
     inlineData part0 = Some inline ->
     base64ToFloat32 (inline_data inline) = Normal pcmData ->
     dispatch_audio currentTime (server_turn (part0 :: rest) interrupted) h
     = on_playback (enqueueAudio currentTime pcmData) h) /\
  (inlineData part0 = None ->
   dispatch_audio currentTime (server_turn (part0 :: rest) interrupted) h
   = Returned h) /\
  (forall inline pcmData,
     inlineData part0 = Some inline ->
     base64ToFloat32 (inline_data inline) = Normal pcmData ->
     onmessage_early currentTime (server_turn (part0 :: rest) interrupted)
                     (playback h)
     = and_then (enqueueAudio currentTime pcmData (playback h))
                (fun p => if interrupted then Returned (clearAudioQueue p)
                          else Returned p)) /\
  (inlineData part0 = None ->
   onmessage_early currentTime (server_turn (part0 :: rest) interrupted)
                   (playback h)
   = if interrupted then Returned (clearAudioQueue (playback h))
     else Returned (playback h)).
Proof.
  split; [reflexivity|]. split; [reflexivity|].
  split; [|split; [|split]].
  - intros inline pcmData Hi Hd. unfold dispatch_audio, first_inlineData.
    cbn. now rewrite Hi, Hd.
  - intros Hi. unfold dispatch_audio, first_inlineData. cbn. now rewrite Hi.
  - intros inline pcmData Hi Hd. unfold onmessage_early, first_inlineData.
    cbn. now rewrite Hi, Hd.
  - intros Hi. unfold onmessage_early, first_inlineData. cbn.
    now rewrite Hi.
Qed.

(** A turn with two audio parts: the first one alone reaches the device. *)
Lemma only_first_part_is_played_witness :
  let ctx := {| sampleRate := 16000 |} in
  let h := {| session :=
                {| wsRef := None; isConnected := true; error := None;
                   logs := []; isVideoEnabled := true; constructed := [] |};
              playback := createAudioContext mounted |} in
  let part0 := {| inlineData :=
                    Some {| inline_data := float32ToBase64 [1 # 2] |} |} in
  let part1 := {| inlineData :=
                    Some {| inline_data := float32ToBase64 [-1] |} |} in
  dispatch_audio 3 (server_turn [part0; part1] false) h
  = on_playback (enqueueAudio 3 [16383 # 32768]) h /\
  onmessage_early 3 (server_turn [part0; part1] false) (playback h)
  = and_then (enqueueAudio 3 [16383 # 32768] (playback h))
             (fun p => Returned p) /\
  output (playback
            (state_of
               (onmessage 3 (Some (server_turn [part0; part1] false)) h)))
  = [[16383 # 32768]] /\
  output (state_of
            (onmessage_early 3 (server_turn [part0; part1] false)
                             (playback h)))
  = [[16383 # 32768]].
Proof.
  intros ctx h part0 part1.
  destruct (only_first_part_is_played 3 part0 [part1] false h)
    as (_ & _ & H & _ & Hearly & _).
  split; [|split; [|split]].
  - apply (H {| inline_data := float32ToBase64 [1 # 2] |}); reflexivity.
  - apply (Hearly {| inline_data := float32ToBase64 [1 # 2] |}); reflexivity.
  - reflexivity.
  - reflexivity.
Defined.

End InboundFacts.

(** ** The connection *)

Module SessionFacts.

Import Codec Session.
Local Open Scope string_scope.
Local Open Scope list_scope.

Lemma send_if_open_closed m s : ws_is_open s = false -> send_if_open m s = s.
Proof.
  unfold ws_is_open, send_if_open. destruct (wsRef s) as [ws|]; [|reflexivity].
  now intros ->.
Qed.

Lemma transmitted_send m s :
  ws_is_open s = true ->
  transmitted (send_if_open m s) = transmitted s ++ [m].
Proof.
  unfold ws_is_open, send_if_open, transmitted.
  destruct (wsRef s) as [ws|]; [|discriminate]. now intros ->.
Qed.

(** C7.  The handler of a microphone block and [sendVideoFrame] return
    normally in every state.  When the socket is absent or not OPEN they
    leave the state as it was: nothing is given to the socket and nothing
    is kept for later.  So whenever what was transmitted changes, the
    socket was OPEN; and then the message goes out (for a frame, when video
    is enabled). *)
Theorem send_gated_by_open s inputData base64Image :
  (ws_is_open s = false ->
   worklet_onmessage inputData s = Returned s /\
   sendVideoFrame base64Image s = Returned s) /\
  (exists s1 s2,
     worklet_onmessage inputData s = Returned s1 /\
     sendVideoFrame base64Image s = Returned s2 /\
     (transmitted s1 <> transmitted s -> ws_is_open s = true) /\
     (transmitted s2 <> transmitted s -> ws_is_open s = true)) /\
  (ws_is_open s = true ->
   transmitted (state_of (worklet_onmessage inputData s))
   = transmitted s
     ++ [{| mimeType := "audio/pcm;rate=16000";
            data := float32ToBase64 inputData |}] /\
   (isVideoEnabled s = true ->
    transmitted (state_of (sendVideoFrame base64Image s))
    = transmitted s ++ [{| mimeType := "image/jpeg"; data := base64Image |}])).
Proof.
  split; [|split].
  - intros Hc. unfold worklet_onmessage, sendVideoFrame.
    rewrite Hc, send_if_open_closed by exact Hc.
    now destruct (isVideoEnabled s).
  - unfold worklet_onmessage, sendVideoFrame.
    destruct (ws_is_open s) eqn:Ho.
    + destruct (isVideoEnabled s); eexists _, _; cbn [negb]; auto.
    + rewrite send_if_open_closed by exact Ho.
      destruct (isVideoEnabled s); eexists _, _; cbn [negb];
        (split; [reflexivity|]); (split; [reflexivity|]);
        split; intros H; now elim H.
  - intros Ho. unfold worklet_onmessage, sendVideoFrame. rewrite Ho.
    cbn [state_of]. split; [now apply transmitted_send|].
    intros ->. cbn [negb state_of]. unfold addLog, transmitted.
    cbn [wsRef]. now apply transmitted_send.
Qed.

(** A socket that is still connecting, and one that is open. *)
Lemma send_gated_by_open_witness :
  let connecting :=
    {| wsRef := Some {| url := API_URL; readyState := CONNECTING;
                        sent := [] |};
       isConnected := false; error := None; logs := [];
       isVideoEnabled := true; constructed := [API_URL] |} in
  let opened :=
    {| wsRef := Some {| url := API_URL; readyState := OPEN; sent := [] |};
       isConnected := true; error := None; logs := [];
       isVideoEnabled := true; constructed := [API_URL] |} in
  (worklet_onmessage [(1 # 2)%Q] connecting = Returned connecting /\
   sendVideoFrame "/9j/4AAQ" connecting = Returned connecting) /\
  (transmitted (state_of (worklet_onmessage [(1 # 2)%Q] opened))
   = transmitted opened
     ++ [{| mimeType := "audio/pcm;rate=16000";
            data := float32ToBase64 [(1 # 2)%Q] |}] /\
   (isVideoEnabled opened = true ->
    transmitted (state_of (sendVideoFrame "/9j/4AAQ" opened))
    = transmitted opened
      ++ [{| mimeType := "image/jpeg"; data := "/9j/4AAQ" |}])).
Proof.
  intros connecting opened. split.
  - apply (send_gated_by_open connecting [(1 # 2)%Q] "/9j/4AAQ"). reflexivity.
  - apply (send_gated_by_open opened [(1 # 2)%Q] "/9j/4AAQ"). reflexivity.
Defined.

(** C8, as amended.  With a credential, [connect] on a session whose socket
    is OPEN changes nothing.  Without a credential, whatever the state of
    the socket, it sets the error (and logs it), creates no socket and
    leaves the socket and the connection flag as they were. *)
Theorem connect_guards apiKey s :
  (is_missing apiKey = false -> ws_is_open s = true -> connect apiKey s = s) /\
  (is_missing apiKey = true ->
   error (connect apiKey s) = Some "API Key is missing" /\
   logs (connect apiKey s)
   = slice_last19 (logs s) ++ ["Error: API Key is missing"] /\
   wsRef (connect apiKey s) = wsRef s /\
   constructed (connect apiKey s) = constructed s /\
   isConnected (connect apiKey s) = isConnected s /\
   isVideoEnabled (connect apiKey s) = isVideoEnabled s).
Proof.
  unfold connect, connect_call. split.
  - now intros -> ->.
  - intros ->. cbn. auto 10.
Qed.

(** An open session with a credential, and a fresh one without. *)
Lemma connect_guards_witness :
  let opened :=
    {| wsRef := Some {| url := API_URL; readyState := OPEN; sent := [] |};
       isConnected := true; error := None; logs := [];
       isVideoEnabled := true; constructed := [API_URL] |} in
  let fresh :=
    {| wsRef := None; isConnected := false; error := None; logs := [];
       isVideoEnabled := true; constructed := [] |} in
  connect "secret" opened = opened /\
  (error (connect "" fresh) = Some "API Key is missing" /\
   logs (connect "" fresh)
   = slice_last19 (logs fresh) ++ ["Error: API Key is missing"] /\
   wsRef (connect "" fresh) = wsRef fresh /\
   constructed (connect "" fresh) = constructed fresh /\
   isConnected (connect "" fresh) = isConnected fresh /\
   isVideoEnabled (connect "" fresh) = isVideoEnabled fresh).
Proof.
  intros opened fresh. split.
  - apply (connect_guards "secret" opened); reflexivity.
  - apply (connect_guards "" fresh). reflexivity.
Defined.

(** C8 as stated fails.  On a session whose socket is OPEN, [connect]
    without a credential is not a no-op: it sets the error and writes a
    log line. *)
Lemma connect_open_without_key_counterexample :
  let opened :=
    {| wsRef := Some {| url := API_URL; readyState := OPEN; sent := [] |};
       isConnected := true; error := None; logs := [];
       isVideoEnabled := true; constructed := [API_URL] |} in
  ws_is_open opened = true /\
  error (connect "" opened) = Some "API Key is missing" /\
  logs (connect "" opened) = ["Error: API Key is missing"] /\
  connect "" opened <> opened.
Proof.
  cbv zeta. repeat split; try reflexivity. discriminate.
Qed.

(** With a credential and no OPEN socket, [connect] asks for one socket,
    for the address that carries the credential; it stores the socket
    unless the credential has a [#] in it, and then the constructor throws
    and [wsRef] stays as it was. *)
Lemma connect_opens apiKey s :
  is_missing apiKey = false -> ws_is_open s = false ->
  constructed (connect apiKey s)
  = constructed s ++ [(API_URL ++ "?key=" ++ apiKey)%string] /\
  (has_fragment apiKey = false ->
   connect_call apiKey s = Returned (connect apiKey s) /\
   wsRef (connect apiKey s)
   = Some {| url := (API_URL ++ "?key=" ++ apiKey)%string;
             readyState := CONNECTING; sent := [] |}) /\
  (has_fragment apiKey = true ->
   connect_call apiKey s = Threw SyntaxError (connect apiKey s) /\
   wsRef (connect apiKey s) = wsRef s).
Proof.
  unfold connect, connect_call, new_WebSocket. intros -> ->.
  destruct (has_fragment apiKey); cbn; repeat split; discriminate.
Qed.

End SessionFacts.

(** ** The emergency notifier *)

Module NotifyFacts.

Import Notify.
Local Open Scope string_scope.
Local Open Scope list_scope.

Section Facts.

Variable number_text : Q -> string.
Variable Client : Type.
Variable twilio : string -> string -> completion Client.
Variable create : Client -> Sms -> option string.

(** A missing value ends the call before anything is sent. *)
Lemma configuration_missing env latitude longitude :
  configured (TWILIO_ACCOUNT_SID env) = None \/
  configured (TWILIO_AUTH_TOKEN env) = None \/
  configured (TWILIO_PHONE_NUMBER env) = None \/
  configured (EMERGENCY_CONTACT_NUMBER env) = None ->
  sendEmergencySMS number_text twilio create env latitude longitude
  = (Normal {| success := false; sid := None;
               error := Some "Configuration missing" |}, []).
Proof.
  unfold sendEmergencySMS.
  intros [H | [H | [H | H]]]; rewrite H;
    repeat match goal with
           | |- context [match configured ?v with _ => _ end] =>
               destruct (configured v)
           end; reflexivity.
Qed.

(** With everything configured and a client made, one message is sent, and
    the result follows the service. *)
Lemma configuration_complete env latitude longitude :
  complete env ->
  accepted twilio env ->
  exists message,
    body message = messageBody number_text latitude longitude /\
    snd (sendEmergencySMS number_text twilio create env latitude longitude)
    = [message] /\
    ((exists message_sid,
        fst (sendEmergencySMS number_text twilio create env latitude
               longitude)
        = Normal
            {| success := true; sid := Some message_sid; error := None |}) \/
     fst (sendEmergencySMS number_text twilio create env latitude longitude)
     = Normal {| success := false; sid := None;
                 error := Some "Failed to send SMS" |}).
Proof.
  intros (a & t & f & n & Ha & Ht & Hf & Hn)
         (a' & t' & client & Ha' & Ht' & Hc).
  rewrite Ha in Ha'. rewrite Ht in Ht'.
  injection Ha' as <-. injection Ht' as <-.
  unfold sendEmergencySMS. rewrite Ha, Ht, Hf, Hn, Hc.
  eexists. split; [|destruct (create client _); cbn; eauto]. reflexivity.
Qed.

(** With everything configured and the credentials refused by [twilio],
    the call rejects and nothing is sent. *)
Lemma configuration_refused env latitude longitude accountSid authToken e :
  complete env ->
  configured (TWILIO_ACCOUNT_SID env) = Some accountSid ->
  configured (TWILIO_AUTH_TOKEN env) = Some authToken ->
  twilio accountSid authToken = Throw e ->
  sendEmergencySMS number_text twilio create env latitude longitude
  = (Throw e, []).
Proof.
  intros (a & t & f & n & Ha & Ht & Hf & Hn) Ha' Ht' Hc.
  rewrite Ha in Ha'. rewrite Ht in Ht'.
  injection Ha' as ->. injection Ht' as ->.
  unfold sendEmergencySMS. now rewrite Ha, Ht, Hf, Hn, Hc.
Qed.

(** The link is there exactly when both coordinates are truthy. *)
Lemma location_link latitude longitude :
  (truthy latitude = true -> truthy longitude = true ->
   messageBody number_text latitude longitude
   = (alert ++ LF ++ LF ++ "Location: https://www.google.com/maps?q="
            ++ template number_text latitude ++ ","
            ++ template number_text longitude)%string) /\
  (truthy latitude = false \/ truthy longitude = false ->
   messageBody number_text latitude longitude = alert).
Proof.
  unfold messageBody. split.
  - now intros -> ->.
  - intros [-> | ->]; [reflexivity | now rewrite andb_false_r].
Qed.

(** C9, where the code departs from it.  A latitude of zero is a
    coordinate that was provided, yet the message is written without the
    location link; so is it for a longitude of zero.  With everything
    configured and a client made by [twilio], that message is the one given
    to the service. *)
Theorem zero_coordinate_drops_location env coordinate :
  complete env ->
  accepted twilio env ->
  messageBody number_text (Some 0%Q) (Some coordinate) = alert /\
  messageBody number_text (Some coordinate) (Some 0%Q) = alert /\
  (exists message,
     snd (sendEmergencySMS number_text twilio create env (Some 0%Q)
            (Some coordinate))
     = [message] /\
     body message = alert) /\
  (exists message,
     snd (sendEmergencySMS number_text twilio create env (Some coordinate)
            (Some 0%Q))
     = [message] /\
     body message = alert).
Proof.
  intros Henv Hclient.
  assert (messageBody number_text (Some 0%Q) (Some coordinate) = alert) as E1.
  { apply location_link. now left. }
  assert (messageBody number_text (Some coordinate) (Some 0%Q) = alert) as E2.
  { apply location_link. now right. }
  split; [exact E1|]. split; [exact E2|]. split.
  - destruct (configuration_complete env (Some 0%Q) (Some coordinate)
                Henv Hclient) as (message & Hb & Hs & _).
    exists message. split; [exact Hs | now rewrite Hb].
  - destruct (configuration_complete env (Some coordinate) (Some 0%Q)
                Henv Hclient) as (message & Hb & Hs & _).
    exists message. split; [exact Hs | now rewrite Hb].
Qed.

End Facts.

(** A fall reported from latitude 0 with the service configured. *)
Lemma zero_coordinate_drops_location_witness :
  let env :=
    {| TWILIO_ACCOUNT_SID := Some "AC0123";
       TWILIO_AUTH_TOKEN := Some "token";
       TWILIO_PHONE_NUMBER := Some "+15550100";
       EMERGENCY_CONTACT_NUMBER := Some "+15550199" |} in
  let number_text := fun _ : Q => "51.5" in
  let twilio := account_client in
  let create := fun (_ : string * string) (_ : Sms) => Some "SM0001" in
  messageBody number_text (Some 0%Q) (Some (103 # 2)%Q) = alert /\
  messageBody number_text (Some (103 # 2)%Q) (Some 0%Q) = alert /\
  (exists message,
     snd (sendEmergencySMS number_text twilio create env (Some 0%Q)
            (Some (103 # 2)%Q))
     = [message] /\
     body message = alert) /\
  (exists message,
     snd (sendEmergencySMS number_text twilio create env (Some (103 # 2)%Q)
            (Some 0%Q))
     = [message] /\
     body message = alert).
Proof.
  intros env number_text twilio create.
  apply (zero_coordinate_drops_location number_text (string * string)%type
           twilio create env (103 # 2)%Q).
  - exists "AC0123", "token", "+15550100", "+15550199".
    repeat split; reflexivity.
  - exists "AC0123", "token", ("AC0123", "token").
    repeat split; reflexivity.
Defined.

End NotifyFacts.

(** * Further properties *)

(** ** The sample codec, beyond the round trip *)

Module CodecMore.

Import Base64 Base64Facts Codec CodecFacts Traces.
Local Open Scope Q_scope.

(** The 16-bit value of a sample, without the store conversion: the
    ceiling of the clamped sample times 32768 when it is negative, the
    floor of the clamped sample times 32767 otherwise. *)
Lemma pcm16_value x :
  let s := Qmax (-1) (Qmin 1 x) in
  pcm16_of_sample x
  = if Qltb s 0 then Qceiling (s * 32768) else Qfloor (s * 32767).
Proof.
  cbv zeta. pose proof (clamp_range x) as Hs.
  destruct (quantize_no_wrap _ Hs) as [Hw _].
  unfold pcm16_of_sample. rewrite Hw. unfold truncate.
  destruct Hs as [Hlo Hhi].
  destruct (Qltb (Qmax (-1) (Qmin 1 x)) 0) eqn:E.
  - apply Qltb_lt in E.
    assert (Qltb (Qmax (-1) (Qmin 1 x) * 32768) 0 = true) as ->
      by (apply Qltb_lt; lra).
    reflexivity.
  - apply Qltb_ge in E.
    assert (Qltb (Qmax (-1) (Qmin 1 x) * 32767) 0 = false) as ->
      by (apply Qltb_ge; lra).
    reflexivity.
Qed.

Lemma clamp_monotone x y :
  x <= y -> Qmax (-1) (Qmin 1 x) <= Qmax (-1) (Qmin 1 y).
Proof.
  intros H. apply Q.max_le_compat_l. now apply Q.min_le_compat_l.
Qed.

Lemma pcm16_monotone x y :
  x <= y -> (pcm16_of_sample x <= pcm16_of_sample y)%Z.
Proof.
  intros H. pose proof (clamp_monotone x y H) as Hs.
  rewrite (pcm16_value x), (pcm16_value y). cbv zeta.
  pose proof (clamp_range x) as [Hx1 Hx2].
  pose proof (clamp_range y) as [Hy1 Hy2].
  set (s := Qmax (-1) (Qmin 1 x)) in *.
  set (u := Qmax (-1) (Qmin 1 y)) in *.
  destruct (Qltb s 0) eqn:Es; destruct (Qltb u 0) eqn:Eu.
  - apply Qceiling_resp_le. lra.
  - apply Qltb_lt in Es. apply Qltb_ge in Eu.
    apply Z.le_trans with 0%Z.
    + apply (ceiling_between (-32768) 0). unfold inject_Z. lra.
    + apply (floor_between 0 32767). unfold inject_Z. lra.
  - apply Qltb_ge in Es. apply Qltb_lt in Eu. lra.
  - apply Qfloor_resp_le. lra.
Qed.

(** The quantization keeps the order of the samples: a louder sample is
    never encoded below a quieter one. *)
Theorem quantization_is_monotone x y :
  x <= y -> (pcm16_of_sample x <= pcm16_of_sample y)%Z.
Proof. apply pcm16_monotone. Qed.

Lemma quantization_is_monotone_witness :
  (pcm16_of_sample (-(1 # 3)) <= pcm16_of_sample (1 # 7))%Z.
Proof.
  apply (quantization_is_monotone (-(1 # 3)) (1 # 7)). discriminate.
Defined.

(** A sample at or above 1 is encoded as 32767 and a sample at or below -1
    as -32768: out of range samples saturate, they do not wrap. *)
Theorem out_of_range_samples_saturate x :
  (1 <= x -> pcm16_of_sample x = 32767%Z) /\
  (x <= -1 -> pcm16_of_sample x = (-32768)%Z).
Proof.
  pose proof (pcm16_in_range x) as Hr. split; intros H.
  - pose proof (pcm16_monotone 1 x H) as Hm.
    rewrite (pcm16_of_one 1) in Hm by reflexivity. lia.
  - pose proof (pcm16_monotone x (-1) H) as Hm.
    rewrite (pcm16_of_minus_one (-1)) in Hm by reflexivity. lia.
Qed.

Lemma out_of_range_samples_saturate_witness :
  pcm16_of_sample (7 # 2) = 32767%Z /\ pcm16_of_sample (-3) = (-32768)%Z.
Proof.
  split.
  - apply (out_of_range_samples_saturate (7 # 2)). discriminate.
  - apply (out_of_range_samples_saturate (-3)). discriminate.
Defined.

Lemma clamp_sign x :
  let s := Qmax (-1) (Qmin 1 x) in
  (0 <= x -> 0 <= s /\ s <= x) /\ (x <= 0 -> x <= s /\ s <= 0).
Proof.
  cbv zeta. split; intros H.
  - split.
    + apply Qle_trans with (Qmin 1 x); [|apply Q.le_max_r].
      apply Q.min_glb; [discriminate | exact H].
    + apply Q.max_lub; [lra | apply Q.le_min_r].
  - rewrite Q.min_r by lra. split; [apply Q.le_max_r|].
    apply Q.max_lub; [discriminate | exact H].
Qed.

(** What one sample becomes: it keeps its sign and does not grow. *)
Lemma decoded_sample_shrinks x :
  let y := inject_Z (pcm16_of_sample x) / 32768 in
  (0 <= x -> 0 <= y /\ y <= x) /\ (x <= 0 -> x <= y /\ y <= 0).
Proof.
  cbv zeta. rewrite (pcm16_value x). cbv zeta.
  destruct (clamp_sign x) as [Hpos Hneg]. cbv zeta in Hpos, Hneg.
  pose proof (clamp_range x) as [Hlo Hhi].
  set (s := Qmax (-1) (Qmin 1 x)) in *.
  unfold Qdiv. change (/ 32768) with (1 # 32768).
  destruct (Qltb s 0) eqn:Es.
  - apply Qltb_lt in Es.
    destruct (ceiling_close (s * 32768)) as [Hc1 Hc2].
    assert (-32768 <= Qceiling (s * 32768) <= 0)%Z as Ht.
    { apply ceiling_between. unfold inject_Z. lra. }
    destruct Ht as [_ Ht]. rewrite Zle_Qle in Ht.
    change (inject_Z 0) with 0 in Ht.
    split; intros H; [destruct (Hpos H); lra | destruct (Hneg H)].
    split; lra.
  - apply Qltb_ge in Es.
    destruct (floor_close (s * 32767)) as [Hf1 Hf2].
    assert (0 <= Qfloor (s * 32767) <= 32767)%Z as Ht.
    { apply floor_between. unfold inject_Z. lra. }
    destruct Ht as [Ht _]. rewrite Zle_Qle in Ht.
    change (inject_Z 0) with 0 in Ht.
    split; intros H; [destruct (Hpos H) | destruct (Hneg H)]; split; lra.
Qed.

(** The codec never amplifies and never flips a sign: for every block,
    each decoded sample lies between zero and the original sample. *)
Theorem codec_never_amplifies buffer :
  exists ys,
    base64ToFloat32 (float32ToBase64 buffer) = Normal ys /\
    Forall2
      (fun x y =>
         (0 <= x -> 0 <= y /\ y <= x) /\ (x <= 0 -> x <= y /\ y <= 0))
      buffer ys.
Proof.
  eexists. split; [apply decode_encode|].
  apply Forall2_map. intros x. apply decoded_sample_shrinks.
Qed.

Lemma length_string_of_list cs :
  String.length (string_of_list_ascii cs) = List.length cs.
Proof.
  induction cs as [|c cs IH]; cbn; [reflexivity | now rewrite IH].
Qed.

Lemma length_list_of_string s :
  List.length (list_ascii_of_string s) = String.length s.
Proof.
  induction s as [|c s IH]; cbn; [reflexivity | now rewrite IH].
Qed.

Lemma length_encode_exact bytes :
  List.length (encode bytes) = (4 * ((List.length bytes + 2) / 3))%nat.
Proof.
  induction bytes as [| a | a b | a b c rest IH] using list_ind3;
    try reflexivity.
  cbn [encode List.length]. rewrite IH.
  change (S (S (S (List.length rest)))) with (3 + List.length rest)%nat.
  divmod.
Qed.

Lemma length_bytes pcm16 :
  List.length (Uint8Array_of_buffer pcm16) = (2 * List.length pcm16)%nat.
Proof.
  induction pcm16 as [|v pcm16 IH]; [reflexivity|].
  cbn [Uint8Array_of_buffer flat_map app List.length].
  fold (Uint8Array_of_buffer pcm16). rewrite IH. lia.
Qed.

(** The size of the payload: a block of [n] samples is written as
    [4 * ceil(2n / 3)] characters. *)
Theorem payload_length buffer :
  String.length (float32ToBase64 buffer)
  = (4 * ((2 * List.length buffer + 2) / 3))%nat.
Proof.
  unfold float32ToBase64, btoa.
  rewrite length_string_of_list, length_encode_exact, length_map.
  rewrite list_ascii_of_string_of_list_ascii, length_map, length_bytes.
  now rewrite length_map.
Qed.

Lemma pairs_ind (A : Type) (P : list A -> Prop) :
  P [] -> (forall a, P [a]) -> (forall a b l, P l -> P (a :: b :: l)) ->
  forall l, P l.
Proof.
  intros H0 H1 H2 l.
  enough (P l /\ forall a, P (a :: l)) as [H _] by exact H.
  induction l as [|b l [IH1 IH2]]; split; auto.
Qed.

(** The views of a buffer: an even number of bytes gives half as many
    signed 16-bit values, an odd number is refused. *)
Lemma Int16Array_of_bytes bytes :
  Forall (fun b => 0 <= b < 256)%Z bytes ->
  (Nat.even (List.length bytes) = true ->
   exists int16,
     Int16Array_of_buffer bytes = Normal int16 /\
     (2 * List.length int16 = List.length bytes)%nat /\
     Forall (fun v => -32768 <= v <= 32767)%Z int16) /\
  (Nat.even (List.length bytes) = false ->
   Int16Array_of_buffer bytes = Throw RangeError).
Proof.
  induction bytes as [|lo|lo hi rest IH] using pairs_ind; intros H.
  - split; [|discriminate]. intros _. exists []. repeat split. constructor.
  - split; [discriminate|]. reflexivity.
  - inversion_clear H as [|? ? Hlo H']. inversion_clear H' as [|? ? Hhi Hr].
    destruct (IH Hr) as [Heven Hodd].
    cbn [List.length Nat.even Int16Array_of_buffer]. split; intros E.
    + destruct (Heven E) as (int16 & -> & Hlen & Hrange). cbn [bind].
      eexists. split; [reflexivity|]. split; [cbn [List.length]; lia|].
      constructor; [|exact Hrange].
      destruct (Z.leb_spec 32768 (lo + 256 * hi)); lia.
    + now rewrite (Hodd E).
Qed.

Lemma char_codes_are_bytes cs :
  Forall (fun b => 0 <= b < 256)%Z (map charCodeAt cs).
Proof.
  apply Forall_map, Forall_forall. intros c _. unfold charCodeAt.
  pose proof (N_ascii_bounded c). lia.
Qed.

(** Whatever text is decoded, the samples that come out are multiples of
    1/32768 from -1 up to 32767/32768: decoded audio stays inside the
    nominal range. *)
Theorem decoded_samples_in_range base64 ys :
  base64ToFloat32 base64 = Normal ys ->
  Forall
    (fun y =>
       -1 <= y /\ y <= 32767 # 32768 /\
       exists v : Z, (-32768 <= v <= 32767)%Z /\ y = inject_Z v / 32768)
    ys.
Proof.
  unfold base64ToFloat32.
  destruct (atob base64) as [binary|e]; [|discriminate]. cbn [bind].
  pose proof (Int16Array_of_bytes _
                (char_codes_are_bytes (list_ascii_of_string binary)))
    as [Heven Hodd].
  destruct (Nat.even (List.length
                        (map charCodeAt (list_ascii_of_string binary)))).
  - destruct (Heven eq_refl) as (int16 & -> & _ & Hrange). cbn [bind].
    intros [= <-]. apply Forall_map.
    eapply Forall_impl; [|exact Hrange]. cbv beta. intros v Hv.
    unfold Qdiv. change (/ 32768) with (1 # 32768).
    destruct Hv as [Hv1 Hv2]. rewrite Zle_Qle in Hv1, Hv2.
    change (inject_Z (-32768)) with (-32768) in Hv1.
    change (inject_Z 32767) with 32767 in Hv2.
    split; [lra|]. split; [lra|]. exists v. split; [|reflexivity].
    rewrite !Zle_Qle. now split.
  - rewrite (Hodd eq_refl). discriminate.
Qed.

Lemma decoded_samples_in_range_witness :
  Forall
    (fun y =>
       -1 <= y /\ y <= 32767 # 32768 /\
       exists v : Z, (-32768 <= v <= 32767)%Z /\ y = inject_Z v / 32768)
    [32767 # 32768; -32768 # 32768; 0 # 32768].
Proof.
  apply (decoded_samples_in_range "/38AgAAA"). vm_compute. reflexivity.
Defined.

(** Decoding fails exactly on text that is not base64 and on payloads
    with an odd number of bytes; a payload of [2n] bytes gives [n]
    samples. *)
Theorem decode_needs_whole_samples base64 binary :
  atob base64 = Normal binary ->
  (Nat.even (String.length binary) = false ->
   base64ToFloat32 base64 = Throw RangeError) /\
  (Nat.even (String.length binary) = true ->
   exists ys,
     base64ToFloat32 base64 = Normal ys /\
     (2 * List.length ys = String.length binary)%nat).
Proof.
  intros Ha. unfold base64ToFloat32. rewrite Ha. cbn [bind].
  pose proof (Int16Array_of_bytes _
                (char_codes_are_bytes (list_ascii_of_string binary)))
    as [Heven Hodd].
  rewrite length_map, length_list_of_string in Heven, Hodd. split; intros E.
  - now rewrite (Hodd E).
  - destruct (Heven E) as (int16 & -> & Hlen & _). cbn [bind].
    eexists. split; [reflexivity|]. rewrite length_map. exact Hlen.
Qed.

Lemma decode_needs_whole_samples_witness :
  (Nat.even 3 = false -> base64ToFloat32 "AAAA" = Throw RangeError) /\
  (Nat.even 4 = true ->
   exists ys,
     base64ToFloat32 "AAAAAA==" = Normal ys /\ (2 * List.length ys = 4)%nat).
Proof.
  split.
  - apply (decode_needs_whole_samples "AAAA"
             (String zero (String zero (String zero EmptyString)))).
    vm_compute. reflexivity.
  - apply (decode_needs_whole_samples "AAAAAA=="
             (String zero (String zero (String zero (String zero
                EmptyString))))).
    vm_compute. reflexivity.
Defined.

(** Decoding and encoding again is not the identity on the wire: a 16-bit
    value that is not positive comes back as it was, a positive one comes
    back one lower. *)
Theorem reencoding_lowers_positive_values (v : Z) :
  ((-32768 <= v <= 0)%Z -> pcm16_of_sample (inject_Z v / 32768) = v) /\
  ((1 <= v <= 32767)%Z ->
   pcm16_of_sample (inject_Z v / 32768) = (v - 1)%Z).
Proof.
  assert (forall k : Z, (-32768 <= k <= 32767)%Z ->
          Qmax (-1) (Qmin 1 (inject_Z k / 32768)) == inject_Z k / 32768)
    as Hclamp.
  { intros k [Hk1 Hk2]. apply clamp_id. rewrite Zle_Qle in Hk1, Hk2.
    change (inject_Z (-32768)) with (-32768) in Hk1.
    change (inject_Z 32767) with 32767 in Hk2.
    unfold Qdiv. change (/ 32768) with (1 # 32768). split; lra. }
  split; intros Hv; rewrite pcm16_value; cbv zeta;
    pose proof (Hclamp v ltac:(lia)) as Hs;
    set (s := Qmax (-1) (Qmin 1 (inject_Z v / 32768))) in *;
    unfold Qdiv in Hs; change (/ 32768) with (1 # 32768) in Hs;
    destruct Hv as [Hv1 Hv2]; rewrite Zle_Qle in Hv1, Hv2.
  - change (inject_Z (-32768)) with (-32768) in Hv1.
    change (inject_Z 0) with 0 in Hv2.
    destruct (Qltb s 0) eqn:Es.
    + destruct (ceiling_close (s * 32768)) as [Hc1 Hc2].
      apply between_integers_up; lra.
    + apply Qltb_ge in Es.
      destruct (floor_close (s * 32767)) as [Hf1 Hf2].
      apply between_integers; lra.
  - change (inject_Z 1) with 1 in Hv1.
    change (inject_Z 32767) with 32767 in Hv2.
    assert (Qltb s 0 = false) as -> by (apply Qltb_ge; lra).
    destruct (floor_close (s * 32767)) as [Hf1 Hf2].
    assert (Qfloor (s * 32767) < v)%Z as Hup by (rewrite Zlt_Qlt; lra).
    assert (v + -2 < Qfloor (s * 32767))%Z as Hdown.
    { rewrite Zlt_Qlt, inject_Z_plus. change (inject_Z (-2)) with (-2). lra. }
    lia.
Qed.

Lemma reencoding_lowers_positive_values_witness :
  pcm16_of_sample (inject_Z (-5) / 32768) = (-5)%Z /\
  pcm16_of_sample (inject_Z 1000 / 32768) = (1000 - 1)%Z.
Proof.
  split.
  - apply (reencoding_lowers_positive_values (-5)). lia.
  - apply (reencoding_lowers_positive_values 1000). lia.
Defined.

End CodecMore.

(** ** The playback scheduler, beyond the claims *)

Module PlayerMore.

Import Codec CodecFacts Player PlayerFacts Traces.
Local Open Scope Q_scope.

Lemma step_without_context p e :
  audioContextRef p = None ->
  audioContextRef (step p e) = None /\ started (step p e) = started p.
Proof.
  intros Hctx. destruct e as [t b | t |]; unfold step, handle.
  - unfold enqueueAudio. cbn [isPlayingRef].
    destruct (isPlayingRef p); cbn [negb state_of]; [now split|].
    unfold playNextChunk. cbn [audioQueueRef audioContextRef].
    destruct (audioQueueRef p ++ [b]); rewrite ?Hctx; now split.
  - unfold onended. destruct (pending p); [now split|].
    unfold playNextChunk. cbn [audioQueueRef audioContextRef].
    destruct (audioQueueRef p); rewrite ?Hctx; now split.
  - now split.
Qed.

(** Without an audio context nothing is ever handed to the output device,
    whatever arrives; and the first block enqueued on an idle player is
    taken off the queue and lost, the player staying marked as playing. *)
Theorem no_context_nothing_plays p :
  audioContextRef p = None ->
  (forall evs, started (run evs p) = started p) /\
  (forall currentTime audioData,
     isPlayingRef p = false -> audioQueueRef p = [] ->
     exists p',
       enqueueAudio currentTime audioData p = Threw TypeError p' /\
       audioQueueRef p' = [] /\ isPlayingRef p' = true /\
       started p' = started p).
Proof.
  intros Hctx. split.
  - intros evs. revert p Hctx.
    induction evs as [|e evs IH]; intros p Hctx; [reflexivity|].
    rewrite run_cons. destruct (step_without_context p e Hctx) as [H1 H2].
    now rewrite (IH _ H1).
  - intros t b Hidle Hq. unfold enqueueAudio. cbn [isPlayingRef].
    rewrite Hidle. cbn [negb]. unfold playNextChunk.
    cbn [audioQueueRef audioContextRef]. rewrite Hq, Hctx. cbn [app].
    eexists. split; [reflexivity|]. now cbn.
Qed.

Lemma no_context_nothing_plays_witness :
  (forall evs, started (run evs mounted) = started mounted) /\
  (forall currentTime audioData,
     isPlayingRef mounted = false -> audioQueueRef mounted = [] ->
     exists p',
       enqueueAudio currentTime audioData mounted = Threw TypeError p' /\
       audioQueueRef p' = [] /\ isPlayingRef p' = true /\
       started p' = started mounted).
Proof. apply (no_context_nothing_plays mounted). reflexivity. Defined.

Lemma step_cursor_at_end p e : cursor_at_end p -> cursor_at_end (step p e).
Proof.
  intros H. destruct e as [t b | t |].
  - destruct (step_cursor p (Enqueue t b) eq_refl)
      as [[Es Ec] | (a & w & Es & _ & Ec)]; unfold cursor_at_end.
    + rewrite Es, Ec. exact H.
    + right. eauto.
  - destruct (step_cursor p (Ended t) eq_refl)
      as [[Es Ec] | (a & w & Es & _ & Ec)]; unfold cursor_at_end.
    + rewrite Es, Ec. exact H.
    + right. eauto.
  - now left.
Qed.

(** Under every sequence of events, interruptions included, the cursor is
    either at zero or at the end of the block that was started last. *)
Theorem cursor_marks_end_of_last_block evs p :
  cursor_at_end p -> cursor_at_end (run evs p).
Proof.
  revert p. induction evs as [|e evs IH]; intros p H; [exact H|].
  rewrite run_cons. now apply IH, step_cursor_at_end.
Qed.

Lemma cursor_marks_end_of_last_block_witness :
  cursor_at_end
    (run [Enqueue 3 [1 # 2]; Interrupted; Enqueue 4 [0; 0]; Ended 5]
         (createAudioContext mounted)).
Proof.
  apply cursor_marks_end_of_last_block. now left.
Defined.

Lemma playNextChunk_flags currentTime p :
  isSpeaking (state_of (playNextChunk currentTime p))
  = isPlayingRef (state_of (playNextChunk currentTime p)).
Proof.
  unfold playNextChunk.
  destruct (audioQueueRef p) as [|audioData rest]; [reflexivity|].
  destruct (audioContextRef p); [|reflexivity].
  now destruct audioData.
Qed.

Lemma step_flags p e :
  isSpeaking p = isPlayingRef p ->
  isSpeaking (step p e) = isPlayingRef (step p e).
Proof.
  intros H. destruct e as [t b | t |]; unfold step, handle.
  - unfold enqueueAudio. cbn [isPlayingRef].
    destruct (isPlayingRef p) eqn:E; cbn [negb state_of];
      [cbn; congruence | apply playNextChunk_flags].
  - unfold onended. destruct (pending p); [exact H|].
    apply playNextChunk_flags.
  - exact H.
Qed.

(** The "is speaking" state the interface shows and the playing flag the
    scheduler keeps never part: after any events they are equal. *)
Theorem speaking_follows_playing evs p :
  isSpeaking p = isPlayingRef p ->
  isSpeaking (run evs p) = isPlayingRef (run evs p).
Proof.
  revert p. induction evs as [|e evs IH]; intros p H; [exact H|].
  rewrite run_cons. now apply IH, step_flags.
Qed.

Lemma speaking_follows_playing_witness :
  let p := run [Enqueue 0 [1 # 2]; Enqueue 1 [0]; Interrupted; Ended 2]
               (createAudioContext mounted) in
  isSpeaking p = isPlayingRef p.
Proof.
  apply (speaking_follows_playing
           [Enqueue 0 [1 # 2]; Enqueue 1 [0]; Interrupted; Ended 2]
           (createAudioContext mounted)).
  reflexivity.
Defined.

Lemma consistent_clear p : consistent p -> consistent (clearAudioQueue p).
Proof.
  unfold consistent. cbn. intuition auto.
Qed.

(** On a player that has its context and whose bookkeeping is consistent,
    an interruption drops exactly the blocks that were waiting: when the
    blocks enqueued afterwards have samples, the device is handed what it
    had been handed before and the blocks enqueued since, and none of the
    blocks that were in the queue. *)
Theorem interruption_drops_the_queue evs p ctx :
  no_interruption evs = true ->
  with_samples (enqueued evs) ->
  audioContextRef p = Some ctx ->
  consistent p ->
  output (run evs (clearAudioQueue p))
  ++ audioQueueRef (run evs (clearAudioQueue p))
  = output p ++ enqueued evs.
Proof.
  intros H Hs Hctx Hcons.
  destruct (fifo_invariant evs (clearAudioQueue p) ctx H Hctx
              (consistent_clear p Hcons) (Forall_nil _) Hs)
    as (_ & _ & _ & Hout).
  exact Hout.
Qed.

Lemma interruption_drops_the_queue_witness :
  let p := run [Enqueue 0 [1 # 2]; Enqueue 0 [1 # 3]; Enqueue 0 [1 # 4]]
               (createAudioContext mounted) in
  let evs := [Enqueue 1 [1 # 5]; Ended 2; Ended 3] in
  output (run evs (clearAudioQueue p))
  ++ audioQueueRef (run evs (clearAudioQueue p))
  = output p ++ enqueued evs.
Proof.
  intros p evs.
  apply (interruption_drops_the_queue evs p {| sampleRate := 16000 |});
    [reflexivity | repeat constructor; discriminate | reflexivity |].
  left. split; reflexivity.
Defined.

(** With a context, whatever happens, at most one source is waiting to
    end: a block is started only on an idle player or when the previous
    source has ended; and an idle player has an empty queue. *)
Theorem one_source_at_a_time evs p ctx :
  audioContextRef p = Some ctx ->
  consistent p ->
  (pending (run evs p) <= 1)%nat /\
  (isPlayingRef (run evs p) = false ->
   audioQueueRef (run evs p) = [] /\ pending (run evs p) = O).
Proof.
  intros Hctx Hcons. apply pending_run.
  destruct Hcons as [[Hp Hn] | (Hp & Hn & Hq)].
  - split; [lia | congruence].
  - split; [lia | auto].
Qed.

Lemma one_source_at_a_time_witness :
  let p := run [Enqueue 0 [1 # 2]; Enqueue 0 [1 # 3]; Interrupted;
                Enqueue 1 [1 # 4]; Ended 2]
               (createAudioContext mounted) in
  (pending p <= 1)%nat /\
  (isPlayingRef p = false -> audioQueueRef p = [] /\ pending p = O).
Proof.
  apply (one_source_at_a_time
           [Enqueue 0 [1 # 2]; Enqueue 0 [1 # 3]; Interrupted;
            Enqueue 1 [1 # 4]; Ended 2]
           (createAudioContext mounted) {| sampleRate := 16000 |});
    [reflexivity|].
  right. repeat split; reflexivity.
Defined.

(** A player marked playing with no source outstanding starts nothing
    any more: no [onended] is left to run [playNextChunk], and
    [enqueueAudio] only queues. *)
Lemma wedged_step p e :
  isPlayingRef p = true -> pending p = O ->
  isPlayingRef (step p e) = true /\ pending (step p e) = O /\
  started (step p e) = started p.
Proof.
  intros Hp Hn. destruct e as [t b | t |]; unfold step, handle.
  - unfold enqueueAudio. cbn [isPlayingRef]. rewrite Hp. cbn. auto.
  - unfold onended. rewrite Hn. cbn. auto.
  - cbn. auto.
Qed.

Lemma wedged_run evs : forall p,
  isPlayingRef p = true -> pending p = O ->
  isPlayingRef (run evs p) = true /\ pending (run evs p) = O /\
  started (run evs p) = started p.
Proof.
  induction evs as [|e evs IH]; intros p Hp Hn; [auto|].
  rewrite run_cons. destruct (wedged_step p e Hp Hn) as (Hp' & Hn' & Hs).
  destruct (IH _ Hp' Hn') as (H1 & H2 & H3). rewrite H3, Hs. auto.
Qed.

(** A block of no samples stops playback for good.  Enqueued on an idle
    player that has its context, it makes [createBuffer] throw after the
    player was marked playing; no source exists whose [onended] would
    restart the loop, so whatever arrives afterwards, interruptions
    included, nothing is handed to the device again. *)
Theorem empty_block_stops_playback ctx currentTime p :
  audioContextRef p = Some ctx ->
  isPlayingRef p = false ->
  audioQueueRef p = [] ->
  pending p = O ->
  exists p',
    enqueueAudio currentTime [] p = Threw NotSupportedError p' /\
    isPlayingRef p' = true /\
    isSpeaking p' = true /\
    started p' = started p /\
    scheduledTimeRef p' = scheduledTimeRef p /\
    forall evs,
      started (run evs p') = started p /\
      isPlayingRef (run evs p') = true.
Proof.
  intros Hctx Hidle Hq Hn. unfold enqueueAudio. cbn [isPlayingRef].
  rewrite Hidle. cbn [negb]. unfold playNextChunk.
  cbn [audioQueueRef audioContextRef scheduledTimeRef started pending].
  rewrite Hq, Hctx. cbn [app]. eexists. split; [reflexivity|].
  cbn [isPlayingRef isSpeaking started scheduledTimeRef].
  repeat (split; [reflexivity|]). intros evs.
  match goal with
  | |- context [run evs ?q] =>
      destruct (wedged_run evs q eq_refl Hn) as (H1 & _ & H3)
  end.
  split; [exact H3 | exact H1].
Qed.

Lemma empty_block_stops_playback_witness :
  exists p',
    enqueueAudio 3 [] ready = Threw NotSupportedError p' /\
    isPlayingRef p' = true /\
    isSpeaking p' = true /\
    started p' = started ready /\
    scheduledTimeRef p' = scheduledTimeRef ready /\
    forall evs,
      started (run evs p') = started ready /\
      isPlayingRef (run evs p') = true.
Proof.
  apply (empty_block_stops_playback {| sampleRate := 16000 |} 3 ready);
    reflexivity.
Defined.

End PlayerMore.

(** ** The inbound handler, beyond the claims *)

Module InboundMore.

Import Codec CodecFacts Player PlayerFacts Session Inbound Traces.
Local Open Scope Q_scope.








(** A payload that does not decode aborts the handler before it looks at
    the interruption flag: the handler throws, the queue is not flushed,
    the cursor is not reset and nothing is logged. *)
Theorem undecodable_audio_skips_the_flush
  currentTime part0 rest inline e h :
  inlineData part0 = Some inline ->
  base64ToFloat32 (inline_data inline) = Throw e ->
  onmessage currentTime (Some (server_turn (part0 :: rest) true)) h
  = Threw e h.
Proof.
  intros Hi Hd. unfold onmessage, dispatch_audio, first_inlineData.
  cbn. now rewrite Hi, Hd.
Qed.

Lemma undecodable_audio_skips_the_flush_witness :
  let h := {| session :=
                {| wsRef := None; isConnected := true; error := None;
                   logs := []; isVideoEnabled := true; constructed := [] |};
              playback :=
                with_cursor 7 [[1 # 2]] (createAudioContext mounted) |} in
  onmessage 8
    (Some (server_turn
             [{| inlineData := Some {| inline_data := "AAAA" |} |}] true)) h
  = Threw RangeError h.
Proof.
  intros h.
  apply (undecodable_audio_skips_the_flush 8
           {| inlineData := Some {| inline_data := "AAAA" |} |} []
           {| inline_data := "AAAA" |} RangeError h);
    [reflexivity | vm_compute; reflexivity].
Defined.

(** A message that carries both audio and the interruption flag, on a
    hook that has its audio context and whose queue holds blocks with
    samples, the block of the message having samples too: the audio is
    enqueued first and the flush comes second.  On a busy player the block
    of the message itself is dropped with the rest of the queue; on an idle
    player it has been started by then, and the flush leaves the cursor at
    zero rather than at the end of that block. *)
Theorem audio_and_interruption_in_one_message
  currentTime part0 rest inline pcmData h ctx :
  inlineData part0 = Some inline ->
  base64ToFloat32 (inline_data inline) = Normal pcmData ->
  pcmData <> [] ->
  audioContextRef (playback h) = Some ctx ->
  with_samples (audioQueueRef (playback h)) ->
  exists h',
    onmessage currentTime (Some (server_turn (part0 :: rest) true)) h
    = Returned h' /\
    audioQueueRef (playback h') = [] /\
    scheduledTimeRef (playback h') = 0 /\
    (isPlayingRef (playback h) = true ->
     started (playback h') = started (playback h)) /\
    (isPlayingRef (playback h) = false ->
     audioQueueRef (playback h) = [] ->
     exists when,
       started (playback h') = started (playback h) ++ [(pcmData, when)]).
Proof.
  intros Hi Hd Hpcm Hctx Hs.
  assert (Hs' : with_samples (audioQueueRef (playback h) ++ [pcmData])).
  { apply with_samples_app; [exact Hs|]. now constructor. }
  unfold onmessage, dispatch_audio, first_inlineData.
  cbn [serverContent server_turn modelTurn parts]. rewrite Hi, Hd.
  unfold on_playback, enqueueAudio. cbn [isPlayingRef].
  destruct (isPlayingRef (playback h)) eqn:Hp; cbn [negb].
  - cbn [lift and_then]. unfold dispatch_interrupted, is_interrupted.
    cbn. eexists. split; [reflexivity|]. cbn. repeat split; congruence.
  - unfold playNextChunk. cbn [audioQueueRef audioContextRef].
    destruct (audioQueueRef (playback h) ++ [pcmData]) as [|b rest'] eqn:Hq.
    { now destruct (audioQueueRef (playback h)). }
    inversion_clear Hs' as [|? ? Hb _].
    destruct b as [|sample samples]; [contradiction|].
    rewrite Hctx. cbn [lift and_then].
    unfold dispatch_interrupted, is_interrupted. cbn.
    eexists. split; [reflexivity|]. cbn. repeat split; try congruence.
    intros _ Hempty. rewrite Hempty in Hq. injection Hq as <- <-.
    eexists. reflexivity.
Qed.

Lemma audio_and_interruption_in_one_message_witness :
  let h := {| session :=
                {| wsRef := None; isConnected := true; error := None;
                   logs := []; isVideoEnabled := true; constructed := [] |};
              playback := createAudioContext mounted |} in
  exists h',
    onmessage 5
      (Some (server_turn
               [{| inlineData :=
                     Some {| inline_data := float32ToBase64 [1] |} |}] true))
      h
    = Returned h' /\
    audioQueueRef (playback h') = [] /\
    scheduledTimeRef (playback h') = 0 /\
    (isPlayingRef (playback h) = true ->
     started (playback h') = started (playback h)) /\
    (isPlayingRef (playback h) = false ->
     audioQueueRef (playback h) = [] ->
     exists when,
       started (playback h')
       = started (playback h) ++ [([32767 # 32768], when)]).
Proof.
  intros h.
  apply (audio_and_interruption_in_one_message 5
           {| inlineData := Some {| inline_data := float32ToBase64 [1] |} |}
           [] {| inline_data := float32ToBase64 [1] |} [32767 # 32768] h
           {| sampleRate := 16000 |});
    [reflexivity | vm_compute; reflexivity | discriminate | reflexivity
    | constructor].
Defined.

(** Whatever arrives, the handler never sends, never opens or drops a
    socket and never sets the error the interface shows: a message that
    does not parse or a payload that does not decode is not reported. *)
Theorem inbound_never_touches_the_connection currentTime parsed h :
  let s' := session (state_of (onmessage currentTime parsed h)) in
  wsRef s' = wsRef (session h) /\
  constructed s' = constructed (session h) /\
  isConnected s' = isConnected (session h) /\
  Session.error s' = Session.error (session h) /\
  isVideoEnabled s' = isVideoEnabled (session h).
Proof.
  cbv zeta. destruct parsed as [m|]; [|cbn; auto 10].
  unfold onmessage, dispatch_audio.
  destruct (first_inlineData m) as [inline|].
  - destruct (base64ToFloat32 (inline_data inline)) as [pcm|e];
      [|cbn; auto 10].
    unfold on_playback.
    destruct (enqueueAudio currentTime pcm (playback h));
      cbn [lift and_then state_of]; [|cbn; auto 10].
    unfold dispatch_interrupted. destruct (is_interrupted m); cbn; auto 10.
  - cbn [and_then]. unfold dispatch_interrupted.
    destruct (is_interrupted m); cbn; auto 10.
Qed.

End InboundMore.

(** ** The connection, beyond the claims *)

Module SessionMore.

Import Codec Session SessionFacts Lifecycle.
Local Open Scope string_scope.
Local Open Scope list_scope.

Lemma length_slice_last19 prev : (List.length (slice_last19 prev) <= 19)%nat.
Proof. unfold slice_last19. rewrite length_skipn. lia. Qed.

Lemma addLog_bound message s :
  (List.length (logs (addLog message s)) <= 20)%nat.
Proof.
  unfold addLog. cbn [logs]. rewrite length_app. cbn [List.length].
  pose proof (length_slice_last19 (logs s)). lia.
Qed.

(** The log keeps the last twenty lines: a new line goes to the end, the
    lines before it keep their order, and only the oldest ones are dropped,
    none when there were nineteen or fewer. *)
Theorem log_keeps_last_twenty message s :
  (List.length (logs (addLog message s)) <= 20)%nat /\
  exists dropped kept,
    logs s = dropped ++ kept /\
    logs (addLog message s) = kept ++ [message] /\
    List.length dropped = (List.length (logs s) - 19)%nat.
Proof.
  split; [apply addLog_bound|].
  exists (firstn (List.length (logs s) - 19) (logs s)),
         (skipn (List.length (logs s) - 19) (logs s)).
  split; [symmetry; apply firstn_skipn|]. split; [reflexivity|].
  rewrite length_firstn. lia.
Qed.

Lemma serve_logs c r :
  (List.length (logs (client_session c)) <= 20)%nat ->
  (List.length (logs (client_session (serve c r))) <= 20)%nat.
Proof.
  intros H. destruct r as [apiKey | | inputData | base64Image];
    cbn [serve client_session].
  - unfold connect, connect_call, new_WebSocket.
    destruct (is_missing apiKey); [apply addLog_bound|].
    destruct (ws_is_open (client_session c)); [exact H|].
    destruct (has_fragment apiKey); cbn [state_of logs]; apply addLog_bound.
  - unfold disconnect. cbn [client_session]. apply addLog_bound.
  - unfold worklet_onmessage, send_if_open. cbn [state_of].
    destruct (wsRef (client_session c)) as [ws|]; [|exact H].
    now destruct (is_OPEN (readyState ws)).
  - unfold sendVideoFrame.
    destruct (isVideoEnabled (client_session c)); cbn [negb state_of];
      [|exact H].
    destruct (ws_is_open (client_session c)); cbn [state_of];
      [apply addLog_bound | exact H].
Qed.

(** Whatever the application asks of the connection, in whatever order,
    the log never grows beyond twenty lines. *)
Theorem log_stays_bounded rs c :
  (List.length (logs (client_session c)) <= 20)%nat ->
  (List.length (logs (client_session (serve_all rs c))) <= 20)%nat.
Proof.
  revert c. induction rs as [|r rs IH]; intros c H; [exact H|].
  cbn [serve_all fold_left]. apply IH, serve_logs, H.
Qed.

Lemma log_stays_bounded_witness :
  (List.length
     (logs (client_session
              (serve_all [Connect ""; Connect "k"; VideoFrame "/9j/";
                          Disconnect; Connect "k"] fresh_client))) <= 20)%nat.
Proof.
  apply (log_stays_bounded
           [Connect ""; Connect "k"; VideoFrame "/9j/"; Disconnect;
            Connect "k"] fresh_client).
  cbn. lia.
Defined.

(** [connect] is guarded against an OPEN socket only: called again before
    the first socket has opened it asks for a second socket for the same
    address.  With a credential that has no [#] in it both calls return and
    the second socket is put in place of the first; with a [#] in it the
    constructor throws each time and [wsRef] stays as it was. *)
Theorem connect_twice_makes_two_sockets apiKey s :
  is_missing apiKey = false ->
  ws_is_open s = false ->
  let address := (API_URL ++ "?key=" ++ apiKey)%string in
  constructed (connect apiKey (connect apiKey s))
  = constructed s ++ [address; address] /\
  (has_fragment apiKey = false ->
   (exists s1, connect_call apiKey s = Returned s1) /\
   (exists s2, connect_call apiKey (connect apiKey s) = Returned s2) /\
   wsRef (connect apiKey (connect apiKey s))
   = Some {| url := address; readyState := CONNECTING; sent := [] |}) /\
  (has_fragment apiKey = true ->
   (exists s1, connect_call apiKey s = Threw SyntaxError s1) /\
   (exists s2,
      connect_call apiKey (connect apiKey s) = Threw SyntaxError s2) /\
   wsRef (connect apiKey (connect apiKey s)) = wsRef s).
Proof.
  intros Hk Ho. cbv zeta.
  destruct (connect_opens apiKey s Hk Ho) as (Hc1 & Hret1 & Hthrow1).
  assert (Ho' : ws_is_open (connect apiKey s) = false).
  { unfold ws_is_open in *. destruct (has_fragment apiKey).
    - destruct (Hthrow1 eq_refl) as [_ ->]. exact Ho.
    - destruct (Hret1 eq_refl) as [_ ->]. reflexivity. }
  destruct (connect_opens apiKey (connect apiKey s) Hk Ho')
    as (Hc2 & Hret2 & Hthrow2).
  split; [now rewrite Hc2, Hc1, <- app_assoc|]. split; intros Hf.
  - destruct (Hret1 Hf) as [E1 _]. destruct (Hret2 Hf) as [E2 W2]. eauto.
  - destruct (Hthrow1 Hf) as [E1 W1]. destruct (Hthrow2 Hf) as [E2 W2].
    rewrite W2, W1. eauto.
Qed.

Lemma connect_twice_makes_two_sockets_witness :
  let s := client_session fresh_client in
  let address := (API_URL ++ "?key=" ++ "secret")%string in
  (constructed (connect "secret" (connect "secret" s))
   = constructed s ++ [address; address] /\
   wsRef (connect "secret" (connect "secret" s))
   = Some {| url := address; readyState := CONNECTING; sent := [] |}) /\
  (constructed (connect "se#cret" (connect "se#cret" s))
   = constructed s
     ++ [(API_URL ++ "?key=" ++ "se#cret")%string;
         (API_URL ++ "?key=" ++ "se#cret")%string] /\
   wsRef (connect "se#cret" (connect "se#cret" s)) = wsRef s).
Proof.
  intros s address. split.
  - destruct (connect_twice_makes_two_sockets "secret" s eq_refl eq_refl)
      as (H1 & H2 & _).
    split; [exact H1 | apply H2; reflexivity].
  - destruct (connect_twice_makes_two_sockets "se#cret" s eq_refl eq_refl)
      as (H1 & _ & H2).
    split; [exact H1 | apply H2; reflexivity].
Defined.

Lemma send_if_open_keeps m s :
  ws_is_open s = true ->
  ws_is_open (send_if_open m s) = true /\
  isVideoEnabled (send_if_open m s) = isVideoEnabled s.
Proof.
  unfold ws_is_open, send_if_open.
  destruct (wsRef s) as [ws|]; [|discriminate].
  intros Ho. rewrite Ho. cbn. auto.
Qed.

Lemma serve_send_open c r :
  is_send r = true ->
  ws_is_open (client_session c) = true ->
  isVideoEnabled (client_session c) = true ->
  ws_is_open (client_session (serve c r)) = true /\
  isVideoEnabled (client_session (serve c r)) = true /\
  transmitted (client_session (serve c r))
  = transmitted (client_session c) ++ message_of r.
Proof.
  intros Hr Ho Hv. destruct r as [k | | inputData | img]; try discriminate;
    cbn [serve client_session message_of].
  - unfold worklet_onmessage. cbn [state_of].
    match goal with
    | |- context [send_if_open ?m _] =>
        destruct (send_if_open_keeps m _ Ho) as [H1 H2]
    end.
    rewrite H1, H2, transmitted_send by exact Ho. auto.
  - unfold sendVideoFrame. rewrite Hv, Ho. cbn [negb state_of].
    match goal with
    | |- context [send_if_open ?m _] =>
        destruct (send_if_open_keeps m _ Ho) as [H1 H2];
        pose proof (transmitted_send m _ Ho) as H3
    end.
    unfold addLog, ws_is_open, transmitted in *.
    cbn [wsRef isVideoEnabled]. rewrite H1, H2, H3. auto.
Qed.

(** While the socket is open and video is enabled, microphone blocks and
    video frames go out in the order they were produced, one message each,
    none dropped and none sent twice. *)
Theorem media_goes_out_in_order rs c :
  forallb is_send rs = true ->
  ws_is_open (client_session c) = true ->
  isVideoEnabled (client_session c) = true ->
  transmitted (client_session (serve_all rs c))
  = transmitted (client_session c) ++ flat_map message_of rs.
Proof.
  revert c. induction rs as [|r rs IH]; intros c Hrs Ho Hv.
  - cbn. now rewrite app_nil_r.
  - cbn [forallb] in Hrs. apply andb_true_iff in Hrs. destruct Hrs as [Hr Hrs].
    destruct (serve_send_open c r Hr Ho Hv) as (Ho' & Hv' & Ht).
    cbn [serve_all fold_left flat_map].
    fold (serve_all rs (serve c r)).
    rewrite (IH _ Hrs Ho' Hv'), Ht, <- app_assoc. reflexivity.
Qed.

Lemma media_goes_out_in_order_witness :
  let rs := [MicrophoneBlock [(1 # 2)%Q]; VideoFrame "/9j/";
             MicrophoneBlock [(-1)%Q]] in
  transmitted (client_session (serve_all rs open_client))
  = transmitted (client_session open_client) ++ flat_map message_of rs.
Proof.
  intros rs. apply (media_goes_out_in_order rs open_client); reflexivity.
Defined.





End SessionMore.

(** ** The earlier revision of the hook *)

Module EarlyMore.

Import Session SessionFacts.
Local Open Scope string_scope.
Local Open Scope list_scope.

(** The earlier [connect] has no test of the credential: on an open
    session it changes nothing whatever the key, and otherwise it makes a
    socket even for the empty key.  For a key that is present the two
    revisions make the same socket and differ in the log only. *)
Theorem early_connect_has_no_credential_guard apiKey s :
  (ws_is_open s = true -> Early.connect apiKey s = s) /\
  (ws_is_open s = false ->
   constructed (Early.connect apiKey s)
   = constructed s ++ [(API_URL ++ "?key=" ++ apiKey)%string]) /\
  (is_missing apiKey = false ->
   wsRef (connect apiKey s) = wsRef (Early.connect apiKey s) /\
   constructed (connect apiKey s) = constructed (Early.connect apiKey s) /\
   isConnected (connect apiKey s) = isConnected (Early.connect apiKey s) /\
   error (connect apiKey s) = error (Early.connect apiKey s)).
Proof.
  unfold Early.connect, Early.connect_call, connect, connect_call,
    new_WebSocket.
  split; [|split].
  - now intros ->.
  - intros ->. now destruct (has_fragment apiKey).
  - intros ->. destruct (ws_is_open s); [cbn; auto|].
    destruct (has_fragment apiKey); cbn; auto.
Qed.

Lemma early_connect_has_no_credential_guard_witness :
  let fresh :=
    {| wsRef := None; isConnected := false; error := None; logs := [];
       isVideoEnabled := true; constructed := [] |} in
  constructed (Early.connect "" fresh)
  = constructed fresh ++ [(API_URL ++ "?key=" ++ "")%string] /\
  (wsRef (connect "k" fresh) = wsRef (Early.connect "k" fresh) /\
   constructed (connect "k" fresh) = constructed (Early.connect "k" fresh) /\
   isConnected (connect "k" fresh) = isConnected (Early.connect "k" fresh) /\
   error (connect "k" fresh) = error (Early.connect "k" fresh)).
Proof.
  intros fresh. split.
  - apply (early_connect_has_no_credential_guard "" fresh). reflexivity.
  - apply (early_connect_has_no_credential_guard "k" fresh). reflexivity.
Defined.

(** The two revisions of [sendVideoFrame] transmit the same when video is
    enabled; with video disabled the later one transmits nothing where the
    earlier one, which has no flag, still sends on an open socket. *)
Theorem video_flag_gates_the_later_revision base64Image s :
  (isVideoEnabled s = true ->
   transmitted (state_of (sendVideoFrame base64Image s))
   = transmitted (state_of (Early.sendVideoFrame base64Image s))) /\
  (isVideoEnabled s = false ->
   sendVideoFrame base64Image s = Returned s /\
   (ws_is_open s = true ->
    transmitted (state_of (Early.sendVideoFrame base64Image s))
    = transmitted s ++ [{| mimeType := "image/jpeg";
                           data := base64Image |}])).
Proof.
  unfold sendVideoFrame, Early.sendVideoFrame. split; intros ->;
    cbn [negb state_of].
  - destruct (ws_is_open s) eqn:Ho; cbn [state_of]; [reflexivity|].
    now rewrite send_if_open_closed.
  - split; [reflexivity|]. apply transmitted_send.
Qed.

Lemma video_flag_gates_the_later_revision_witness :
  let muted :=
    {| wsRef := Some {| url := API_URL; readyState := OPEN; sent := [] |};
       isConnected := true; error := None; logs := [];
       isVideoEnabled := false; constructed := [API_URL] |} in
  sendVideoFrame "/9j/" muted = Returned muted /\
  (ws_is_open muted = true ->
   transmitted (state_of (Early.sendVideoFrame "/9j/" muted))
   = transmitted muted ++ [{| mimeType := "image/jpeg"; data := "/9j/" |}]).
Proof.
  intros muted.
  apply (video_flag_gates_the_later_revision "/9j/" muted). reflexivity.
Defined.

End EarlyMore.

(** ** Fall detection and the notifier *)

Module FallMore.

Import FallDetection Notify NotifyFacts.
Local Open Scope Z_scope.

Lemma spaced_snoc l b :
  spaced l ->
  (forall l0 a, l = l0 ++ [a] -> COOLDOWN_MS < fst b - fst a) ->
  spaced (l ++ [b]).
Proof.
  induction l as [|a l IH]; intros Hs Hlast; [exact I|].
  destruct l as [|a' l].
  - cbn. split; [|exact I]. apply (Hlast [] a). reflexivity.
  - destruct Hs as [Hgap Hs]. cbn [app spaced]. split; [exact Hgap|].
    apply IH; [exact Hs|].
    intros l0 a0 E. apply (Hlast (a :: l0) a0). cbn. now rewrite E.
Qed.

Section Observed.

Variable magnitude : Q -> Q -> Q -> Q.

Lemma observe_keeps d r :
  spaced (alerts d) -> last_is_ref d ->
  spaced (alerts (observe magnitude d r)) /\
  last_is_ref (observe magnitude d r).
Proof.
  intros Hs Hl. unfold observe, handleMotion.
  destruct (accelerationIncludingGravity (motion r)) as [a|]; [|now split].
  destruct (x a) as [ax|]; [|now split].
  destruct (y a) as [ay|]; [|now split].
  destruct (z a) as [az|]; [|now split].
  destruct (exceeds_threshold magnitude ax ay az); [|now split].
  destruct (Z.ltb_spec COOLDOWN_MS (at_time r - lastAlertTime d)) as [Hc|_];
    [|now split].
  cbn [alerts lastAlertTime]. split.
  - apply spaced_snoc; [exact Hs|]. intros l0 a0 E. cbn [fst].
    now rewrite (Hl l0 a0 E).
  - intros l0 a0 E. apply app_inj_tail in E. destruct E as [_ <-].
    reflexivity.
Qed.

Lemma observe_all_keeps rs : forall d,
  spaced (alerts d) -> last_is_ref d ->
  spaced (alerts (observe_all magnitude rs d)) /\
  last_is_ref (observe_all magnitude rs d).
Proof.
  induction rs as [|r rs IH]; intros d Hs Hl; [now split|].
  cbn [observe_all fold_left]. destruct (observe_keeps d r Hs Hl).
  now apply IH.
Qed.

(** The cooldown: whatever the sensor reports, whatever the magnitude the
    platform computes from it and whatever the clock reads, two consecutive
    alerts are more than thirty seconds apart. *)
Theorem alerts_are_spaced rs d :
  alerts d = [] -> spaced (alerts (observe_all magnitude rs d)).
Proof.
  intros E. apply observe_all_keeps.
  - now rewrite E.
  - intros l a H. rewrite E in H. now destruct l.
Qed.

End Observed.

Lemma alerts_are_spaced_witness :
  spaced
    (alerts
       (observe_all whole_magnitude
          [shake 1700000000000 PositionError; shake 1700000010000 NoGeolocation;
           shake 1700000031000 (Position 1 2)]
          initial)).
Proof.
  apply (alerts_are_spaced whole_magnitude
           [shake 1700000000000 PositionError;
            shake 1700000010000 NoGeolocation;
            shake 1700000031000 (Position 1 2)] initial).
  reflexivity.
Defined.

Section Notified.

Variable magnitude : Q -> Q -> Q -> Q.
Variable number_text : Q -> string.
Variable Client : Type.
Variable twilio : string -> string -> completion Client.
Variable create : Client -> Sms -> option string.



End Notified.



End FallMore.
